(** * dagger/client.go: the buildkit client of dagger

    A shallow embedding of [src/dagger/client.go] and the properties of
    its connection manager ([NewClient]), compute orchestrator
    ([Compute], [buildfn]), progress reporter ([logSolveStatus]) and
    output collector ([outputfn]).

    Go strings are byte strings: they are modelled by [string], whose
    characters are the 8-bit [ascii].  Go [int] indices and lengths are
    modelled by [Z]; a string length is far below [2^63], so that the
    additions on indices of this file never wrap. *)

From Stdlib Require Import ZArith String Ascii List Lia DecimalString.
From stdpp Require Import base option list gmap strings fin_maps.

Local Open Scope string_scope.
Local Open Scope Z_scope.

(** ** The Go runtime and standard library, as far as the client uses them *)

Module Go.

(** A Go function either returns or panics (a run-time error such as a
    slice bound out of range). *)
Inductive run (A : Type) : Type :=
| Returns (a : A)
| Panics (reason : string).
Arguments Returns {A} a.
Arguments Panics {A} reason.

Definition bind {A B : Type} (m : run A) (k : A -> run B) : run B :=
  match m with
  | Returns a => k a
  | Panics r => Panics r
  end.

Definition returned {A : Type} (m : run A) : bool :=
  match m with Returns _ => true | Panics _ => false end.

(** [len(s)] *)
Definition len (s : string) : Z := Z.of_nat (String.length s).

(** [s[lo:hi]]: slicing a string panics unless [0 <= lo <= hi <= len(s)]. *)
Definition slice (s : string) (lo hi : Z) : run string :=
  if (0 <=? lo) && (lo <=? hi) && (hi <=? len s)
  then Returns (String.substring (Z.to_nat lo) (Z.to_nat (hi - lo)) s)
  else Panics "slice bounds out of range".

(** [strings.HasPrefix(s, prefix)] *)
Definition HasPrefix (s prefix : string) : bool := String.prefix prefix s.

(** [strings.HasSuffix(s, suffix)]:
    [len(s) >= len(suffix) && s[len(s)-len(suffix):] == suffix] *)
Definition HasSuffix (s suffix : string) : bool :=
  (len suffix <=? len s)
  && String.eqb
       (String.substring (String.length s - String.length suffix)
          (String.length suffix) s)
       suffix.

(** [strings.Index(s, substr)]: the index of the first instance of
    [substr] in [s], or [-1]. *)
Definition Index (s substr : string) : Z :=
  match String.index 0 substr s with
  | Some i => Z.of_nat i
  | None => -1
  end.

(** The [error] interface.  A nil error is [None] of [option error].
    [io_EOF] is the sentinel [io.EOF]; [errNew] is an error value made
    by a collaborator; [errWrap] is what [fmt.Errorf] builds from a
    format with a [%w] verb: the formatted text and the wrapped error. *)
Inductive error : Type :=
| io_EOF
| errNew (msg : string)
| errWrap (msg : string) (cause : error).

(** [err.Error()] *)
Definition Error (e : error) : string :=
  match e with
  | io_EOF => "EOF"
  | errNew msg => msg
  | errWrap msg _ => msg
  end.

Fixpoint error_eqb (a b : error) : bool :=
  match a, b with
  | io_EOF, io_EOF => true
  | errNew m, errNew n => String.eqb m n
  | errWrap m c, errWrap n d => String.eqb m n && error_eqb c d
  | _, _ => false
  end.

(** [errors.Is(err, target)] walks the chain of wrapped errors. *)
Fixpoint errors_Is (err target : error) : bool :=
  error_eqb err target
  || match err with
     | errWrap _ cause => errors_Is cause target
     | _ => false
     end.

(** [fmt.Errorf(prefix + ": %w", err)] *)
Definition Errorf_w (prefix : string) (err : error) : error :=
  errWrap (prefix ++ ": " ++ Error err) err.

(** The verb [%d] of [fmt.Sprintf] on an [int]. *)
Definition fmt_d (n : Z) : string := NilZero.string_of_int (Z.to_int n).

End Go.

Import Go.

#[global] Instance run_ret : MRet run := @Returns.
#[global] Instance run_bind : MBind run := fun A B k m => Go.bind m k.

(** ** Progress reporter: the component tag of a vertex name *)

(** [parseName], the closure of [logSolveStatus], on the name of the
    vertex. *)
Definition parseName (name : string) : run (string * string) :=
  if (len name <? 2) || negb (HasPrefix name "@") then Returns ("", name)
  else
    tail ← slice name 1 (len name);
    let prefixEndPos := Index tail "@" in
    if prefixEndPos =? -1 then Returns ("", name)
    else
      component ← slice name 1 (prefixEndPos + 1);
      message ← slice name (prefixEndPos + 3) (len name);
      Returns (component, message).

Fixpoint contains_byte (a : ascii) (s : string) : bool :=
  match s with
  | EmptyString => false
  | String b s' => Ascii.eqb a b || contains_byte a s'
  end.

(** The tag shape of the reporter: at least two bytes, a leading [@] and
    a second [@] at index 1 or later. *)
Definition tag_shape (name : string) : bool :=
  (2 <=? len name) && HasPrefix name "@"
  && match name with
     | String _ rest => contains_byte "@" rest
     | EmptyString => false
     end.

(** ** Progress reporter: the three callbacks of [logSolveStatus] *)

(** [bk.Vertex], as far as the reporter reads it. *)
Record Vertex : Type := { Name : string; Digest : string }.

(** zerolog levels used by the client. *)
Inductive Level : Type := DebugLevel | InfoLevel | ErrorLevel.

(** The value of a field of a log record: [Str] or [Interface] on a
    map of strings. *)
Inductive FieldValue : Type :=
| StrField (s : string)
| MapField (m : gmap string string).

(** A zerolog event handed to the logging sink: its level, the fields
    added by this file to the logger and to the event, in order, and the
    message of [Msg]. *)
Record LogRecord : Type :=
  { level : Level; fields : list (string * FieldValue); message : string }.

(** [log.Ctx(ctx).With().Str("component", component).Logger()] *)
Definition with_component (component : string) : list (string * FieldValue) :=
  [("component", StrField component)].

Definition LF : string := String "010"%char "".

(** [fmt.Sprintf("#%d %s\n", index, text)] *)
Definition Sprintf_index_text (index : Z) (text : string) : string :=
  "#" ++ fmt_d index ++ " " ++ text ++ LF.

Section Reporter.

(** The operands of a format ([...interface{}]) and [fmt.Sprintf] on a
    format chosen by the caller. *)
Variable Arg : Type.
Variable Sprintf : string -> list Arg -> string.

(** First callback: a vertex and its index. *)
Definition vertexPrint (v : Vertex) (index : Z) : run (list LogRecord) :=
  '(component, name) ← parseName (Name v);
  Returns
    [ {| level := DebugLevel; fields := with_component component;
         message := Sprintf_index_text index name |};
      {| level := DebugLevel; fields := with_component component;
         message := Sprintf_index_text index (Digest v) |} ].

(** Second callback: a formatted line about a vertex. *)
Definition statusPrint (v : Vertex) (format : string) (a : list Arg)
  : run (list LogRecord) :=
  '(component, _) ← parseName (Name v);
  Returns
    [ {| level := DebugLevel; fields := with_component component;
         message := Sprintf format a |} ].

(** Third callback: output of a vertex on one of its streams. *)
Definition logPrint (v : Vertex) (stream : Z) (partial : bool)
    (format : string) (a : list Arg) : run (list LogRecord) :=
  '(component, _) ← parseName (Name v);
  Returns
    (if stream =? 1 then
       [ {| level := InfoLevel; fields := with_component component;
            message := Sprintf format a |} ]
     else if stream =? 2 then
       [ {| level := ErrorLevel; fields := with_component component;
            message := Sprintf format a |} ]
     else []).

(** What the print loop hands to the callbacks. *)
Inductive ProgressEvent : Type :=
| VertexStatus (v : Vertex) (index : Z)
| StatusLine (v : Vertex) (format : string) (a : list Arg)
| StreamWrite (v : Vertex) (stream : Z) (partial : bool)
    (format : string) (a : list Arg).

(** Modelled from the spec: [progressui.PrintSolveStatus] is not among
    the sources.  It drains the event channel, calls one of the three
    callbacks per event in arrival order, and returns when the channel
    closes, or the failure of its own loop ([loop_result]).  The
    records are those the callbacks emit, in order. *)
Fixpoint PrintSolveStatus
    (cbVertex : Vertex -> Z -> run (list LogRecord))
    (cbStatus : Vertex -> string -> list Arg -> run (list LogRecord))
    (cbLog : Vertex -> Z -> bool -> string -> list Arg -> run (list LogRecord))
    (events : list ProgressEvent) (loop_result : option error)
  : run (list LogRecord * option error) :=
  match events with
  | [] => Returns ([], loop_result)
  | ev :: events' =>
      records ← match ev with
                | VertexStatus v index => cbVertex v index
                | StatusLine v format a => cbStatus v format a
                | StreamWrite v stream partial format a =>
                    cbLog v stream partial format a
                end;
      '(records', result) ← PrintSolveStatus cbVertex cbStatus cbLog
                              events' loop_result;
      Returns ((records ++ records')%list, result)
  end.

Definition logSolveStatus (events : list ProgressEvent)
    (loop_result : option error) : run (list LogRecord * option error) :=
  PrintSolveStatus vertexPrint statusPrint logPrint events loop_result.

End Reporter.

Arguments VertexStatus {Arg} v index.
Arguments StatusLine {Arg} v format a.
Arguments StreamWrite {Arg} v stream partial format a.

(** A [Sprintf] for examples: the format is printed as it is, for a
    format without verbs. *)
Definition Sprintf_plain (format : string) (a : list unit) : string := format.

(** ** Output collector *)

(** One header of the tar stream with the bytes read after it. *)
Record TarEntry : Type := { entry_name : string; entry_content : string }.

(** What [tar.Reader.Next] yields on the export stream: the entries in
    stream order, then an error, which is [io.EOF] at a clean end. *)
Record TarStream : Type := { entries : list TarEntry; final : error }.

(** [lg.With().Str("file", h.Name).Logger()] *)
Definition with_file (name : string) : list (string * FieldValue) :=
  [("file", StrField name)].

Definition skipping_record (h : TarEntry) : LogRecord :=
  {| level := DebugLevel; fields := with_file (entry_name h);
     message := "skipping non-cue file from exporter tar stream" |}.

Definition merging_record (h : TarEntry) : LogRecord :=
  {| level := DebugLevel; fields := with_file (entry_name h);
     message := "outputfn: compiling & merging" |}.

(** A record is written, then the rest runs. *)
Definition logged {A : Type} (r : LogRecord) (rest : list LogRecord * A)
  : list LogRecord * A :=
  (r :: fst rest, snd rest).

Section Collector.

(** [compiler.Value] with [compiler.EmptyStruct], [compiler.Compile] and
    [Value.Fill]: the package is not among the sources.  [Fill] updates
    its receiver in place; here it returns the updated value. *)
Variable Value : Type.
Variable EmptyStruct : Value.
Variable Compile : string -> string -> Value + error.
Variable Fill : Value -> Value -> Value + error.

(** The loop of [outputfn]: [out] is the accumulator, [rest] the entries
    [tr.Next] still has to yield.  The result is the records written and
    the pair returned, a nil value or a nil error being [None]. *)
Fixpoint outputfn_loop (out : Value) (rest : list TarEntry) (final : error)
  : list LogRecord * (option Value * option error) :=
  match rest with
  | [] =>
      if errors_Is final io_EOF then ([], (Some out, None))
      else ([], (None, Some (Errorf_w "read tar stream" final)))
  | h :: rest' =>
      if negb (HasSuffix (entry_name h) ".cue") then
        logged (skipping_record h) (outputfn_loop out rest' final)
      else
        match Compile (entry_name h) (entry_content h) with
        | inr err => ([merging_record h], (None, Some err))
        | inl v =>
            match Fill out v with
            | inr err =>
                ([merging_record h],
                 (None, Some (Errorf_w (entry_name h) err)))
            | inl out' =>
                logged (merging_record h) (outputfn_loop out' rest' final)
            end
        end
  end.

Definition outputfn (r : TarStream)
  : list LogRecord * (option Value * option error) :=
  outputfn_loop EmptyStruct (entries r) (final r).

End Collector.

(** ** Structured values *)

(** The package [compiler] is not among the sources.  A structured value
    is modelled by the finite map from the paths it defines to their
    concrete values. *)
Module Cue.

(** Modelled from the spec: [compiler.EmptyStruct], the value the
    collector starts from, defines nothing. *)
Definition EmptyStruct : gmap string string := ∅.

(** Modelled from the spec: [Value.Fill] is not among the sources.
    Merging is rejected, not silently overwritten, when the two values
    define conflicting values at one path; two values that define
    disjoint fields, or the same value where both define one, merge to
    their union. *)
Definition Fill (out v : gmap string string) : gmap string string + error :=
  if decide (map_agree out v) then inl (out ∪ v)
  else inr (errNew "conflicting values").

(** A decoder for examples: the content of a file [label=text] defines
    the one path [label]; a content without [=] does not decode. *)
Definition Compile_label_text (name content : string) : gmap string string + error :=
  match String.index 0 "=" content with
  | Some i =>
      inl {[ String.substring 0 i content
             := String.substring (S i) (String.length content - S i) content ]}
  | None => inr (errNew (name ++ ": expected label=text"))
  end.

End Cue.

(** Entries of export streams, for examples. *)
Definition readme : TarEntry :=
  {| entry_name := "README.md"; entry_content := "# output" |}.
Definition dockerfile : TarEntry :=
  {| entry_name := "Dockerfile"; entry_content := "FROM scratch" |}.
Definition www_cue : TarEntry :=
  {| entry_name := "www.cue"; entry_content := "www=up" |}.
Definition db_cue : TarEntry :=
  {| entry_name := "db.cue"; entry_content := "db=ready" |}.
Definition www_down_cue : TarEntry :=
  {| entry_name := "override/www.cue"; entry_content := "www=down" |}.

(** The collector on the structured values of [Cue] with the decoder of
    the examples. *)
Definition Cue_outputfn (r : TarStream)
  : list LogRecord * (option (gmap string string) * option error) :=
  outputfn (gmap string string) Cue.EmptyStruct Cue.Compile_label_text
    Cue.Fill r.

(** ** Build submitter *)

(** [bk.ExportEntry]: the exporter type and the writer its [Output]
    function returns. *)
Inductive Writer : Type := PipeWriter.

Record ExportEntry : Type := { Type_ : string; Output : Writer }.

(** [bk.ExporterTar] *)
Definition ExporterTar : string := "tar".

(** [bk.SolveOpt], as far as [buildfn] fills it. *)
Record SolveOpt : Type :=
  { LocalDirs : gmap string string;
    Exports : list ExportEntry;
    FrontendAttrs : gmap string string }.

(** What [buildfn] does to the outside, in order: a record written to
    the logger, or a call of the build entrypoint of the backend. *)
Inductive Effect : Type :=
| Logged (r : LogRecord)
| BackendBuild (opts : SolveOpt).

Definition is_BackendBuild (e : Effect) : bool :=
  match e with BackendBuild _ => true | Logged _ => false end.

Definition plain_record (msg : string) : LogRecord :=
  {| level := DebugLevel; fields := []; message := msg |}.

Section Submitter.

(** The plan evaluator ([*Env] and the solver made for a build), the
    gateway client and result of buildkit: none is among the sources. *)
Variables GatewayClient Solver FS BkResult : Type.
Variable NewSolver : GatewayClient -> Solver.
Variable Scratch : Solver -> FS.
Variable env_LocalDirs : gmap string string.
Variable env_Update : Solver -> option error.
Variable env_Compute : Solver -> option error.
Variable env_Export : FS -> FS + error.
Variable fs_Result : FS -> BkResult + error.

(** [filepath.Abs] and [bkCleanError]. *)
Variable filepath_Abs : string -> string + error.
Variable bkCleanError : error -> error.

(** The callback handed to [Build]: the records it writes and what it
    returns. *)
Definition build_callback (c : GatewayClient)
  : list LogRecord * (BkResult + error) :=
  let s := NewSolver c in
  match env_Update s with
  | Some err => ([], inr err)
  | None =>
      logged (plain_record "computing env")
        match env_Compute s with
        | Some err => ([], inr err)
        | None =>
            logged (plain_record "exporting env")
              match env_Export (Scratch s) with
              | inr err => ([], inr err)
              | inl outdir => ([], fs_Result outdir)
              end
        end
  end.

(** [bk.Client.Build]: given the options and the callback, the records
    written while it runs (it decides whether and when the callback
    runs) and the exporter response in the order [range] visits it, or
    the error. *)
Variable bk_Build :
  SolveOpt -> (GatewayClient -> list LogRecord * (BkResult + error)) ->
  list LogRecord * (list (string * string) + error).

(** The first loop of [buildfn]: [visit] is the bindings of the map in
    the order [range] visits them, [localdirs] the map being updated. *)
Fixpoint resolve_localdirs (visit : list (string * string))
    (localdirs : gmap string string) : gmap string string + error :=
  match visit with
  | [] => inl localdirs
  | (label, dir) :: visit' =>
      match filepath_Abs dir with
      | inr err => inr err
      | inl abs => resolve_localdirs visit' (<[label := abs]> localdirs)
      end
  end.

Definition exporter_record (kv : string * string) : LogRecord :=
  {| level := DebugLevel;
     fields := [("key", StrField (fst kv)); ("value", StrField (snd kv))];
     message := "exporter response" |}.

(** [buildfn]: the effects in order and the error returned.  [visit] is
    the order in which [range] visits the bindings of the plan. *)
Definition buildfn (visit : list (string * string))
  : list Effect * option error :=
  match resolve_localdirs visit env_LocalDirs with
  | inr err => ([], Some err)
  | inl localdirs =>
      let opts :=
        {| LocalDirs := localdirs;
           Exports := [ {| Type_ := ExporterTar; Output := PipeWriter |} ];
           FrontendAttrs := ∅ |} in
      let spawning :=
        {| level := DebugLevel;
           fields := [("localdirs", MapField (LocalDirs opts));
                      ("attrs", MapField (FrontendAttrs opts))];
           message := "spawning buildkit job" |} in
      let '(during, resp) := bk_Build opts build_callback in
      let before := ([Logged spawning; BackendBuild opts]
                     ++ map Logged during)%list in
      match resp with
      | inr err =>
          (before, Some (Errorf_w "buildkit solve" (bkCleanError err)))
      | inl exporterResponse =>
          ((before ++ map (fun kv => Logged (exporter_record kv))
                        exporterResponse)%list,
           None)
      end
  end.

End Submitter.

(** A plan and a backend for examples: one local directory, an
    evaluator that never fails, and no cleaning of the errors of the
    backend. *)
Definition example_buildfn
    (filepath_Abs : string -> string + error)
    (bk_Build : SolveOpt -> (unit -> list LogRecord * (unit + error)) ->
                list LogRecord * (list (string * string) + error))
    (visit : list (string * string)) : list Effect * option error :=
  buildfn unit unit unit unit (fun _ => tt) (fun _ => tt)
    {[ "src" := "." ]} (fun _ => None) (fun _ => None)
    (fun fs => inl fs) (fun _ => inl tt) filepath_Abs (fun err => err)
    bk_Build visit.

Definition Abs_in_work (dir : string) : string + error :=
  inl ("/work/" ++ dir).

Definition Abs_without_cwd (dir : string) : string + error :=
  inr (errNew "getwd: no such file or directory").

(** A backend that runs the callback and succeeds, and one that fails
    before it runs the callback or writes to the export. *)
Definition Build_succeeds (opts : SolveOpt)
    (callback : unit -> list LogRecord * (unit + error))
  : list LogRecord * (list (string * string) + error) :=
  (fst (callback tt), inl [("containerimage.digest", "sha256:ab")]).

Definition Build_fails (opts : SolveOpt)
    (callback : unit -> list LogRecord * (unit + error))
  : list LogRecord * (list (string * string) + error) :=
  ([], inr (errNew "exit code: 1")).

(** ** Compute orchestrator *)

(** The three functions given to the errgroup. *)
Inductive Task : Type := Forwarder | Submitter | Collector.

(** [errgroup.Group.Wait], once every function has returned: the first
    non-nil error in the order in which the functions returned. *)
Fixpoint errgroup_Wait (returned_errors : list (option error)) : option error :=
  match returned_errors with
  | [] => None
  | Some err :: _ => Some err
  | None :: rest => errgroup_Wait rest
  end.

Section Orchestrator.

Variable Value : Type.

(** [compiler.Err]: not among the sources. *)
Variable compiler_Err : option error -> option error.

(** The error returned by each function: [forwarder] and [submitter] are
    what [logSolveStatus] and [buildfn] returned, [err] is the variable
    the third function assigns and returns. *)
Definition returned_error (forwarder submitter err : option error) (t : Task)
  : option error :=
  match t with
  | Forwarder => forwarder
  | Submitter => submitter
  | Collector => err
  end.

(** [Compute], once its three functions have returned: [order] is the
    order in which they returned, [collector] what [outputfn] returned,
    which the third function stores in [out] and [err]. *)
Definition Compute (order : list Task) (forwarder submitter : option error)
    (collector : option Value * option error)
  : option Value * option error :=
  let out := fst collector in
  let err := snd collector in
  (out,
   compiler_Err
     (errgroup_Wait (map (returned_error forwarder submitter err) order))).

End Orchestrator.

(** ** Connection manager *)

Definition defaultBuildkitHost : string := "docker-container://buildkitd".

(** [os.Getenv]: the value of the variable, empty when it is not
    present. *)
Definition os_Getenv (environ : gmap string string) (key : string) : string :=
  default "" (environ !! key).

Section Connection.

(** [*bk.Client] and [bk.New]. *)
Variable BkClient : Type.
Variable bk_New : string -> BkClient + error.

Record Client : Type := { c : BkClient }.

(** The call of [bk.New] and what [NewClient] makes of its result. *)
Definition connect (host : string) : Client + error :=
  match bk_New host with
  | inr err => inr (Errorf_w "buildkit client" err)
  | inl c => inl {| c := c |}
  end.

Definition NewClient (environ : gmap string string) (host : string)
  : Client + error :=
  let host := if String.eqb host "" then os_Getenv environ "BUILDKIT_HOST"
              else host in
  let host := if String.eqb host "" then defaultBuildkitHost else host in
  connect host.

End Connection.

Arguments c {BkClient} _.

(** ** Further examples *)

(** An entry with the extension whose content the decoder of the
    examples rejects. *)
Definition broken_cue : TarEntry :=
  {| entry_name := "broken.cue"; entry_content := "no label" |}.

(** The callback of the plan of the examples. *)
Definition example_build_callback (c : unit)
  : list LogRecord * (unit + error) :=
  build_callback unit unit unit unit (fun _ => tt) (fun _ => tt)
    (fun _ => None) (fun _ => None) (fun fs => inl fs) (fun _ => inl tt) c.

(** A plan with two local directories, on the backend that succeeds. *)
Definition two_dirs : gmap string string :=
  <[ "lib" := "../lib" ]> {[ "src" := "." ]}.

Definition two_dirs_buildfn (visit : list (string * string))
  : list Effect * option error :=
  buildfn unit unit unit unit (fun _ => tt) (fun _ => tt)
    two_dirs (fun _ => None) (fun _ => None)
    (fun fs => inl fs) (fun _ => inl tt) Abs_in_work (fun err => err)
    Build_succeeds visit.

(** The callback of a plan whose outputs do not compute. *)
Definition failing_build_callback (c : unit)
  : list LogRecord * (unit + error) :=
  build_callback unit unit unit unit (fun _ => tt) (fun _ => tt)
    (fun _ => None) (fun _ => Some (errNew "conflicting values"))
    (fun fs => inl fs) (fun _ => inl tt) c.

(** * Properties *)

(** ** Byte strings: lengths, slices and the first occurrence of a byte *)

Lemma length_append (s t : string) :
  String.length (s ++ t) = (String.length s + String.length t)%nat.
Proof. induction s as [|a s IH]; simpl; [reflexivity | now rewrite IH]. Qed.

Lemma len_append (s t : string) : len (s ++ t) = len s + len t.
Proof. unfold len. rewrite length_append. lia. Qed.

Lemma len_String (a : ascii) (s : string) : len (String a s) = 1 + len s.
Proof. unfold len. simpl String.length. lia. Qed.

Lemma len_nonneg (s : string) : 0 <= len s.
Proof. unfold len. lia. Qed.

Lemma substring_whole_prefix (mid post : string) :
  String.substring 0 (String.length mid) (mid ++ post) = mid.
Proof.
  induction mid as [|a mid IH]; simpl.
  - destruct post; reflexivity.
  - now rewrite IH.
Qed.

Lemma substring_skip (pre s : string) (n : nat) :
  String.substring (String.length pre) n (pre ++ s) = String.substring 0 n s.
Proof. induction pre as [|a pre IH]; simpl; [reflexivity | exact IH]. Qed.

(** The slice that cuts [mid] out of [pre ++ mid ++ post] returns [mid]. *)
Lemma slice_middle (pre mid post : string) :
  slice (pre ++ mid ++ post) (len pre) (len pre + len mid) = Returns mid.
Proof.
  unfold slice.
  rewrite !len_append.
  pose proof (len_nonneg pre). pose proof (len_nonneg mid).
  pose proof (len_nonneg post).
  replace ((0 <=? len pre) && (len pre <=? len pre + len mid)
           && (len pre + len mid <=? len pre + (len mid + len post)))
    with true by (symmetry; rewrite !andb_true_iff, !Z.leb_le; lia).
  f_equal. unfold len.
  replace (Z.of_nat (String.length pre) + Z.of_nat (String.length mid)
           - Z.of_nat (String.length pre)) with (Z.of_nat (String.length mid))
    by lia.
  rewrite !Nat2Z.id, substring_skip. apply substring_whole_prefix.
Qed.

(** A slice whose lower bound exceeds its upper bound panics. *)
Lemma slice_inverted (s : string) (lo hi : Z) :
  hi < lo -> slice s lo hi = Panics "slice bounds out of range".
Proof.
  intros Hlt. unfold slice.
  replace (lo <=? hi) with false by (symmetry; apply Z.leb_gt; lia).
  now rewrite andb_false_r.
Qed.

Lemma prefix_byte (a b : ascii) (s : string) :
  String.prefix (String a "") (String b s) = Ascii.eqb a b.
Proof.
  cbn [String.prefix]. destruct (ascii_dec a b) as [->|Hne].
  - rewrite Ascii.eqb_refl. now destruct s.
  - symmetry. now apply Ascii.eqb_neq.
Qed.

Lemma prefix_at (s : string) : String.prefix "@" (String "@" s) = true.
Proof. now rewrite prefix_byte. Qed.

Lemma prefix_not_at (b : ascii) (s : string) :
  Ascii.eqb "@" b = false -> String.prefix "@" (String b s) = false.
Proof. intros Hb. now rewrite prefix_byte. Qed.

Lemma index_String (sub : string) (b : ascii) (s : string) :
  String.index 0 sub (String b s)
  = if String.prefix sub (String b s) then Some 0%nat
    else match String.index 0 sub s with
         | Some n => Some (S n)
         | None => None
         end.
Proof. reflexivity. Qed.

Lemma append_String (a : ascii) (s t : string) :
  String a s ++ t = String a (s ++ t).
Proof. reflexivity. Qed.

Lemma append_empty (t : string) : "" ++ t = t.
Proof. reflexivity. Qed.

(** [strings.Index] finds the first [@]: the one that follows a text
    without [@]. *)
Lemma Index_first_at (c r : string) :
  contains_byte "@" c = false -> Index (c ++ String "@" r) "@" = len c.
Proof.
  unfold Index, len. intros Hc.
  enough (String.index 0 "@" (c ++ String "@" r) = Some (String.length c))
    as -> by reflexivity.
  induction c as [|b c IH].
  - now rewrite append_empty, index_String, prefix_at.
  - cbn [contains_byte] in Hc. apply orb_false_iff in Hc as [Hb Hc].
    rewrite append_String, index_String, (prefix_not_at _ _ Hb).
    now rewrite (IH Hc).
Qed.

Lemma Index_no_at (s : string) :
  contains_byte "@" s = false -> Index s "@" = -1.
Proof.
  unfold Index. intros Hs.
  enough (String.index 0 "@" s = None) as -> by reflexivity.
  induction s as [|b s IH]; [reflexivity|].
  cbn [contains_byte] in Hs. apply orb_false_iff in Hs as [Hb Hs].
  rewrite index_String, (prefix_not_at _ _ Hb). now rewrite (IH Hs).
Qed.

(** Every string either has no [@] or splits at its first [@]. *)
Lemma split_first_at (s : string) :
  contains_byte "@" s = false
  \/ exists c r, s = c ++ String "@" r /\ contains_byte "@" c = false.
Proof.
  induction s as [|b s IH]; [now left|].
  destruct (Ascii.eqb "@" b) eqn:Hb.
  - right. apply Ascii.eqb_eq in Hb as <-. now exists "", s.
  - destruct IH as [Hs | (c & r & -> & Hc)].
    + left. cbn [contains_byte]. now rewrite Hb.
    + right. exists (String b c), r. split; [reflexivity|].
      cbn [contains_byte]. now rewrite Hb.
Qed.

Lemma append_nil_r (s : string) : s ++ "" = s.
Proof. induction s as [|a s IH]; [reflexivity|]. now rewrite append_String, IH. Qed.

Lemma slice_of_parts (s pre mid post : string) (lo hi : Z) :
  s = pre ++ mid ++ post -> lo = len pre -> hi = len pre + len mid ->
  slice s lo hi = Returns mid.
Proof. intros -> -> ->. apply slice_middle. Qed.

(** ** What [parseName] does on each kind of name *)

Example parseName_tagged :
  parseName "@fetch@ pulling image" = Returns ("fetch", "pulling image").
Proof. reflexivity. Qed.

Example parseName_plain :
  parseName "[internal] load metadata" = Returns ("", "[internal] load metadata").
Proof. reflexivity. Qed.

Example parseName_short_tag : returned (parseName "@c@") = false.
Proof. reflexivity. Qed.

Lemma parseName_steps (tail : string) :
  parseName (String "@" tail)
  = if len (String "@" tail) <? 2 then Returns ("", String "@" tail)
    else
      let prefixEndPos := Index tail "@" in
      if prefixEndPos =? -1 then Returns ("", String "@" tail)
      else
        component ← slice (String "@" tail) 1 (prefixEndPos + 1);
        message ← slice (String "@" tail) (prefixEndPos + 3)
                     (len (String "@" tail));
        Returns (component, message).
Proof.
  unfold parseName, HasPrefix. rewrite prefix_at. cbn [negb].
  rewrite orb_false_r.
  destruct (len (String "@" tail) <? 2) eqn:Hlen; [reflexivity|].
  rewrite (slice_of_parts (String "@" tail) "@" tail "" 1 (len (String "@" tail))).
  - reflexivity.
  - now rewrite append_String, append_empty, append_nil_r.
  - reflexivity.
  - rewrite len_String. reflexivity.
Qed.

(** A tag, one separator byte and a message: the component and the
    message are returned. *)
Lemma parseName_tag_message (c : string) (sep : ascii) (rest : string) :
  contains_byte "@" c = false ->
  parseName (String "@" (c ++ String "@" (String sep rest)))
  = Returns (c, rest).
Proof.
  intros Hc. rewrite parseName_steps.
  set (name := String "@" (c ++ String "@" (String sep rest))).
  assert (Hlen : len name = len c + len rest + 3).
  { unfold name. rewrite len_String, len_append, !len_String. lia. }
  pose proof (len_nonneg c). pose proof (len_nonneg rest).
  replace (len name <? 2) with false by (symmetry; apply Z.ltb_ge; lia).
  cbn zeta. rewrite (Index_first_at _ _ Hc).
  replace (len c =? -1) with false by (symmetry; apply Z.eqb_neq; lia).
  rewrite (slice_of_parts name "@" c (String "@" (String sep rest))
             1 (len c + 1));
    [| reflexivity | reflexivity | change (len "@") with 1; lia ].
  rewrite (slice_of_parts name
             (String "@" (c ++ String "@" (String sep ""))) rest ""
             (len c + 3) (len name)).
  - reflexivity.
  - unfold name. rewrite append_nil_r, append_String. f_equal.
    clear. induction c as [|a c IH]; [reflexivity|].
    now rewrite !append_String, IH.
  - rewrite len_String, len_append, !len_String. change (len "") with 0. lia.
  - rewrite Hlen, len_String, len_append, !len_String. change (len "") with 0.
    lia.
Qed.

(** A tag with nothing after its closing [@]: the slice of the message
    starts beyond the end of the name, and [parseName] panics. *)
Lemma parseName_bare_tag (c : string) :
  contains_byte "@" c = false ->
  parseName (String "@" (c ++ "@")) = Panics "slice bounds out of range".
Proof.
  intros Hc. rewrite parseName_steps.
  set (name := String "@" (c ++ "@")).
  assert (Hlen : len name = len c + 2).
  { unfold name. rewrite len_String, len_append. change (len "@") with 1. lia. }
  pose proof (len_nonneg c).
  replace (len name <? 2) with false by (symmetry; apply Z.ltb_ge; lia).
  cbn zeta. rewrite (Index_first_at _ _ Hc).
  replace (len c =? -1) with false by (symmetry; apply Z.eqb_neq; lia).
  rewrite (slice_of_parts name "@" c "@" 1 (len c + 1));
    [| reflexivity | reflexivity | change (len "@") with 1; lia ].
  cbn [mbind run_bind Go.bind].
  rewrite slice_inverted by lia. reflexivity.
Qed.

(** A name without the tag shape comes back whole, with no component. *)
Lemma parseName_no_tag (name : string) :
  tag_shape name = false -> parseName name = Returns ("", name).
Proof.
  unfold tag_shape. intros Hshape.
  destruct name as [|a tail]; [reflexivity|].
  destruct (Ascii.eqb "@" a) eqn:Ha.
  - apply Ascii.eqb_eq in Ha as <-.
    rewrite parseName_steps.
    destruct (len (String "@" tail) <? 2) eqn:Hlen; [reflexivity|].
    apply Z.ltb_ge in Hlen. unfold HasPrefix in Hshape.
    rewrite prefix_at, andb_true_r in Hshape.
    replace (2 <=? len (String "@" tail)) with true in Hshape
      by (symmetry; apply Z.leb_le; lia).
    cbn [andb] in Hshape. cbn zeta. now rewrite (Index_no_at _ Hshape).
  - unfold parseName, HasPrefix. rewrite (prefix_not_at _ _ Ha).
    cbn [negb]. now rewrite orb_true_r.
Qed.

(** Every name is of exactly one of three kinds, and [parseName] is
    decided by the kind. *)
Lemma parseName_cases (name : string) :
  (tag_shape name = false /\ parseName name = Returns ("", name))
  \/ (exists c sep rest,
        name = String "@" (c ++ String "@" (String sep rest))
        /\ contains_byte "@" c = false
        /\ tag_shape name = true /\ parseName name = Returns (c, rest))
  \/ (exists c,
        name = String "@" (c ++ "@") /\ contains_byte "@" c = false
        /\ tag_shape name = true
        /\ parseName name = Panics "slice bounds out of range").
Proof.
  destruct (tag_shape name) eqn:Hshape.
  2: { left. split; [reflexivity | now apply parseName_no_tag]. }
  right. unfold tag_shape in Hshape.
  destruct name as [|a tail]; [now rewrite andb_false_r in Hshape|].
  apply andb_true_iff in Hshape as [Hshape Hat].
  apply andb_true_iff in Hshape as [_ Hpre].
  unfold HasPrefix in Hpre. rewrite prefix_byte in Hpre.
  apply Ascii.eqb_eq in Hpre as <-.
  destruct (split_first_at tail) as [Hno | (c & r & -> & Hc)];
    [congruence|].
  destruct r as [|sep rest].
  - right. exists c. repeat split; try assumption.
    now apply parseName_bare_tag.
  - left. exists c, sep, rest. repeat split; try assumption.
    now apply parseName_tag_message.
Qed.

(** C2: a name with the tag shape but nothing after the closing [@],
    here ["@build@"], is given no component and no message: the slice
    of the message starts at index 8 of a name of 7 bytes, and
    [parseName] panics instead of returning the component ["build"]. *)
Theorem parseName_tag_without_message_panics :
  tag_shape "@build@" = true
  /\ parseName "@build@" = Panics "slice bounds out of range".
Proof. split; reflexivity. Qed.

(** C3: [parseName] is not total: on the names ["@c@"] and ["@@"],
    which have the tag shape, the slice [v.Name[prefixEndPos+3:len(v.Name)]]
    has its lower bound beyond the length and [parseName] panics. *)
Theorem parseName_short_tags_panic :
  parseName "@c@" = Panics "slice bounds out of range"
  /\ parseName "@@" = Panics "slice bounds out of range".
Proof. split; reflexivity. Qed.

(** X4: [parseName] panics on exactly the names that end with the
    closing [@] of their tag. *)
Lemma parseName_panics_iff (name : string) :
  returned (parseName name) = false
  <-> exists c, name = String "@" (c ++ "@") /\ contains_byte "@" c = false.
Proof.
  split.
  - intros Hpanic.
    destruct (parseName_cases name)
      as [[_ Hret] | [(c & sep & rest & _ & _ & _ & Hret) | (c & -> & Hc & _)]].
    + now rewrite Hret in Hpanic.
    + now rewrite Hret in Hpanic.
    + now exists c.
  - intros (c & -> & Hc). now rewrite parseName_bare_tag.
Qed.

(** ** The records of the reporter *)

Example vertexPrint_example :
  vertexPrint {| Name := "@fetch@ pull"; Digest := "sha256:ab" |} 12
  = Returns
      [ {| level := DebugLevel; fields := with_component "fetch";
           message := "#12 pull" ++ LF |};
        {| level := DebugLevel; fields := with_component "fetch";
           message := "#12 sha256:ab" ++ LF |} ].
Proof. reflexivity. Qed.

(** C4, as stated, fails: for the vertex [build] with the digest
    [sha256:ab] and the index 3 the reporter writes two records, one
    with the message and one with the digest, not one record with both. *)
Lemma vertexPrint_writes_two_records :
  vertexPrint {| Name := "build"; Digest := "sha256:ab" |} 3
  = Returns
      [ {| level := DebugLevel; fields := with_component "";
           message := "#3 build" ++ LF |};
        {| level := DebugLevel; fields := with_component "";
           message := "#3 sha256:ab" ++ LF |} ].
Proof. reflexivity. Qed.

(** C4, amended: for a status update on a vertex whose name [parseName]
    returns on, the reporter writes exactly two records, both at debug
    severity and with the parsed component: the first holds the index
    and the parsed message, the second the index and the digest. *)
Theorem vertexPrint_two_debug_records
    (v : Vertex) (index : Z) (component msg : string) :
  parseName (Name v) = Returns (component, msg) ->
  vertexPrint v index
  = Returns
      [ {| level := DebugLevel; fields := with_component component;
           message := "#" ++ fmt_d index ++ " " ++ msg ++ LF |};
        {| level := DebugLevel; fields := with_component component;
           message := "#" ++ fmt_d index ++ " " ++ Digest v ++ LF |} ].
Proof. intros Hparse. unfold vertexPrint. now rewrite Hparse. Qed.

Lemma vertexPrint_two_debug_records_witness :
  vertexPrint {| Name := "@fetch@ pull"; Digest := "sha256:ab" |} 12
  = Returns
      [ {| level := DebugLevel; fields := with_component "fetch";
           message := "#" ++ fmt_d 12 ++ " " ++ "pull" ++ LF |};
        {| level := DebugLevel; fields := with_component "fetch";
           message := "#" ++ fmt_d 12 ++ " " ++ "sha256:ab" ++ LF |} ].
Proof.
  apply (vertexPrint_two_debug_records
           {| Name := "@fetch@ pull"; Digest := "sha256:ab" |} 12 "fetch" "pull").
  reflexivity.
Defined.

Section ReporterFacts.

Context {Arg : Type} (Sprintf : string -> list Arg -> string).

(** X6: with a name [parseName] returns on, a stream write makes one
    record at informational severity for the stream 1, one at error severity
    for the stream 2, and none for another stream. *)
Lemma logPrint_records (v : Vertex) (stream : Z) (partial : bool)
    (format : string) (a : list Arg) (component msg : string) :
  parseName (Name v) = Returns (component, msg) ->
  logPrint Arg Sprintf v stream partial format a
  = Returns
      (if stream =? 1 then
         [ {| level := InfoLevel; fields := with_component component;
              message := Sprintf format a |} ]
       else if stream =? 2 then
         [ {| level := ErrorLevel; fields := with_component component;
              message := Sprintf format a |} ]
       else []).
Proof. intros Hparse. unfold logPrint. now rewrite Hparse. Qed.

(** X7: with a name [parseName] returns on, a formatted line makes one
    debug record, with the formatted text as its message; the message
    part of the name is not used. *)
Lemma statusPrint_records (v : Vertex) (format : string) (a : list Arg)
    (component msg : string) :
  parseName (Name v) = Returns (component, msg) ->
  statusPrint Arg Sprintf v format a
  = Returns
      [ {| level := DebugLevel; fields := with_component component;
           message := Sprintf format a |} ].
Proof. intros Hparse. unfold statusPrint. now rewrite Hparse. Qed.

(** Each callback parses the name first: where [parseName] panics, no
    record is written, whatever the event. *)
Lemma logPrint_panics (v : Vertex) (stream : Z) (partial : bool)
    (format : string) (a : list Arg) (reason : string) :
  parseName (Name v) = Panics reason ->
  logPrint Arg Sprintf v stream partial format a = Panics reason.
Proof. intros Hparse. unfold logPrint. now rewrite Hparse. Qed.

Lemma vertexPrint_panics (v : Vertex) (index : Z) (reason : string) :
  parseName (Name v) = Panics reason -> vertexPrint v index = Panics reason.
Proof. intros Hparse. unfold vertexPrint. now rewrite Hparse. Qed.

(** The loop of the reporter stops at the first callback that panics. *)
Lemma logSolveStatus_panics (ev : ProgressEvent Arg)
    (events : list (ProgressEvent Arg)) (loop_result : option error)
    (reason : string) :
  match ev with
  | VertexStatus v index => vertexPrint v index
  | StatusLine v format a => statusPrint Arg Sprintf v format a
  | StreamWrite v stream partial format a =>
      logPrint Arg Sprintf v stream partial format a
  end = Panics reason ->
  logSolveStatus Arg Sprintf (ev :: events) loop_result = Panics reason.
Proof.
  intros Hcb. unfold logSolveStatus. cbn [PrintSolveStatus].
  now rewrite Hcb.
Qed.

End ReporterFacts.

Example logPrint_streams :
  logPrint unit Sprintf_plain
    {| Name := "@fetch@ pull"; Digest := "sha256:ab" |} 1 false "out" []
  = Returns [ {| level := InfoLevel; fields := with_component "fetch";
                 message := "out" |} ]
  /\ logPrint unit Sprintf_plain
       {| Name := "@fetch@ pull"; Digest := "sha256:ab" |} 2 false "err" []
     = Returns [ {| level := ErrorLevel; fields := with_component "fetch";
                    message := "err" |} ]
  /\ logPrint unit Sprintf_plain
       {| Name := "@fetch@ pull"; Digest := "sha256:ab" |} 3 false "other" []
     = Returns [].
Proof. repeat split; reflexivity. Qed.

(** C5: a stream write on the stream 1 for the vertex ["@c@"] writes no
    record at all: the callback parses the name first and panics there,
    and so it does on the streams 2 and 3. *)
Theorem logPrint_panics_on_bare_tag :
  logPrint unit Sprintf_plain {| Name := "@c@"; Digest := "sha256:ab" |}
    1 false "out" []
  = Panics "slice bounds out of range"
  /\ logPrint unit Sprintf_plain {| Name := "@c@"; Digest := "sha256:ab" |}
       2 false "err" []
     = Panics "slice bounds out of range"
  /\ logPrint unit Sprintf_plain {| Name := "@c@"; Digest := "sha256:ab" |}
       3 false "other" []
     = Panics "slice bounds out of range".
Proof. repeat split; reflexivity. Qed.

(** ** Output collector *)

Section CollectorFacts.

Context {Value : Type} (EmptyStruct : Value).
Context (Compile : string -> string -> Value + error).
Context (Fill : Value -> Value -> Value + error).

Local Abbreviation loop := (outputfn_loop Value Compile Fill).
Local Abbreviation collect := (outputfn Value EmptyStruct Compile Fill).

Local Abbreviation other_file :=
  (fun h : TarEntry => HasSuffix (entry_name h) ".cue" = false).

Lemma outputfn_loop_end (out : Value) (stop : error) :
  loop out [] stop
  = if errors_Is stop io_EOF then ([], (Some out, None))
    else ([], (None, Some (Errorf_w "read tar stream" stop))).
Proof. reflexivity. Qed.

Lemma outputfn_loop_skip (out : Value) (h : TarEntry)
    (rest : list TarEntry) (stop : error) :
  other_file h ->
  loop out (h :: rest) stop
  = logged (skipping_record h) (loop out rest stop).
Proof. intros Hh. cbn [outputfn_loop]. now rewrite Hh. Qed.

Lemma outputfn_loop_merge (out out' v : Value) (h : TarEntry)
    (rest : list TarEntry) (stop : error) :
  HasSuffix (entry_name h) ".cue" = true ->
  Compile (entry_name h) (entry_content h) = inl v ->
  Fill out v = inl out' ->
  loop out (h :: rest) stop
  = logged (merging_record h) (loop out' rest stop).
Proof.
  intros Hh Hv Hfill. cbn [outputfn_loop]. now rewrite Hh, Hv, Hfill.
Qed.

(** Entries without the extension in front of a stream: one record for
    each, and then the collector goes on as if they were not there. *)
Lemma outputfn_loop_skipped (out : Value) (skipped rest : list TarEntry)
    (stop : error) :
  Forall other_file skipped ->
  loop out (skipped ++ rest)%list stop
  = ((map skipping_record skipped ++ fst (loop out rest stop))%list,
     snd (loop out rest stop)).
Proof.
  induction 1 as [|h skipped Hh _ IH].
  - cbn [app map]. now destruct (loop out rest stop).
  - cbn [app map]. rewrite (outputfn_loop_skip _ _ _ _ Hh), IH. reflexivity.
Qed.

(** The collector returns a value or an error, never both and never
    neither. *)
Lemma outputfn_loop_value_or_error (out : Value) (rest : list TarEntry)
    (stop : error) :
  (exists v, snd (loop out rest stop) = (Some v, None))
  \/ (exists err, snd (loop out rest stop) = (None, Some err)).
Proof.
  revert out. induction rest as [|h rest IH]; intros out.
  - rewrite outputfn_loop_end. destruct (errors_Is stop io_EOF); eauto.
  - cbn [outputfn_loop].
    destruct (negb (HasSuffix (entry_name h) ".cue")); [apply IH|].
    destruct (Compile (entry_name h) (entry_content h)) as [v|err]; [|eauto].
    destruct (Fill out v) as [out'|err]; [apply IH | eauto].
Qed.

(** Entries that were collected into [acc] before a clean end are
    collected into [acc] before whatever follows them. *)
Lemma outputfn_loop_prefix (out acc : Value) (pre rest : list TarEntry)
    (stop : error) :
  snd (loop out pre io_EOF) = (Some acc, None) ->
  snd (loop out (pre ++ rest)%list stop) = snd (loop acc rest stop).
Proof.
  revert out. induction pre as [|h pre IH]; intros out.
  - rewrite outputfn_loop_end. cbn. now intros [= ->].
  - cbn [app outputfn_loop].
    destruct (negb (HasSuffix (entry_name h) ".cue")); [apply IH|].
    destruct (Compile (entry_name h) (entry_content h)) as [v|err];
      [|discriminate].
    destruct (Fill out v) as [out'|err]; [apply IH | discriminate].
Qed.

(** C6: the collector skips the entries whose name lacks the extension
    [.cue], without error and without a change of the accumulator: a
    stream goes on after them as if they were not there; at the clean
    end of the stream it returns the accumulator and no error (and the
    read error, wrapped, without a value at another end); so a stream of
    such entries alone with a clean end yields the empty value and no
    error, having written one record per skipped entry. *)
Theorem outputfn_skips_other_files (out : Value)
    (skipped rest : list TarEntry) (stop : error) :
  Forall (fun h => HasSuffix (entry_name h) ".cue" = false) skipped ->
  snd (loop out (skipped ++ rest)%list stop) = snd (loop out rest stop)
  /\ snd (loop out [] stop)
     = (if errors_Is stop io_EOF then (Some out, None)
        else (None, Some (Errorf_w "read tar stream" stop)))
  /\ collect {| entries := skipped; final := stop |}
     = (map skipping_record skipped,
        if errors_Is stop io_EOF then (Some EmptyStruct, None)
        else (None, Some (Errorf_w "read tar stream" stop))).
Proof.
  intros Hskipped. split; [|split].
  - now rewrite (outputfn_loop_skipped _ _ _ _ Hskipped).
  - rewrite outputfn_loop_end. now destruct (errors_Is stop io_EOF).
  - unfold outputfn. cbn [entries final].
    pose proof (outputfn_loop_skipped EmptyStruct skipped [] stop Hskipped)
      as Hloop.
    rewrite app_nil_r in Hloop. rewrite Hloop, outputfn_loop_end.
    destruct (errors_Is stop io_EOF); cbn [fst snd]; now rewrite app_nil_r.
Qed.

(** C7: when [Fill] rejects the value decoded from an entry, the
    collector stops there and returns no value and the error of [Fill]
    wrapped in an error whose message starts with the name of the
    entry. *)
Theorem outputfn_merge_rejected (pre post : list TarEntry) (h : TarEntry)
    (stop : error) (acc v : Value) (err : error) :
  snd (loop EmptyStruct pre io_EOF) = (Some acc, None) ->
  HasSuffix (entry_name h) ".cue" = true ->
  Compile (entry_name h) (entry_content h) = inl v ->
  Fill acc v = inr err ->
  exists merge_error,
    snd (collect {| entries := (pre ++ h :: post)%list; final := stop |})
    = (None, Some merge_error)
    /\ Error merge_error = entry_name h ++ ": " ++ Error err
    /\ errors_Is merge_error err = true.
Proof.
  intros Hpre Hh Hv Hfill. exists (Errorf_w (entry_name h) err).
  split; [|split].
  - unfold outputfn. cbn [entries final].
    rewrite (outputfn_loop_prefix _ _ _ _ _ Hpre).
    cbn [outputfn_loop]. now rewrite Hh, Hv, Hfill.
  - reflexivity.
  - unfold Errorf_w. cbn [errors_Is].
    enough (forall e, errors_Is e e = true) as -> by apply orb_true_r.
    clear. intros e.
    assert (Heq : forall a, error_eqb a a = true).
    { induction a as [|m|m a IH]; cbn [error_eqb];
        rewrite ?String.eqb_refl, ?IH; reflexivity. }
    destruct e; cbn [errors_Is]; now rewrite Heq.
Qed.

End CollectorFacts.

(** ** Structured values: merging by [Fill] *)

Lemma Cue_Fill_agree (out v : gmap string string) :
  map_agree out v -> Cue.Fill out v = inl (out ∪ v).
Proof. intros Hagree. unfold Cue.Fill. now rewrite decide_True. Qed.

Lemma Cue_Fill_conflict (out v : gmap string string) :
  ¬ map_agree out v -> Cue.Fill out v = inr (errNew "conflicting values").
Proof. intros Hconflict. unfold Cue.Fill. now rewrite decide_False. Qed.

Lemma Cue_Fill_empty (v : gmap string string) :
  Cue.Fill Cue.EmptyStruct v = inl v.
Proof.
  rewrite Cue_Fill_agree by apply map_agree_empty_l.
  unfold Cue.EmptyStruct. now rewrite (left_id_L ∅ (∪)).
Qed.

Lemma map_disjoint_agree (v1 v2 : gmap string string) :
  v1 ##ₘ v2 -> map_agree v1 v2.
Proof.
  rewrite map_disjoint_spec, map_agree_spec.
  intros Hdisjoint i x y Hx Hy. destruct (Hdisjoint i x y Hx Hy).
Qed.

(** The union of two values that agree where both are defined does not
    depend on the order. *)
Lemma map_agree_union_comm (v1 v2 : gmap string string) :
  map_agree v1 v2 -> v1 ∪ v2 = v2 ∪ v1.
Proof.
  rewrite map_agree_spec. intros Hagree. apply map_eq. intros i.
  rewrite !lookup_union.
  destruct (v1 !! i) as [x|] eqn:Hx, (v2 !! i) as [y|] eqn:Hy; cbn;
    try reflexivity.
  f_equal. eauto.
Qed.

Section CueCollector.

Context (Compile : string -> string -> gmap string string + error).

Local Abbreviation collect :=
  (outputfn (gmap string string) Cue.EmptyStruct Compile Cue.Fill).

(** Two decodable entries with the extension: the collector returns the
    union of the two values when they agree, and no value otherwise,
    whichever comes first in the stream. *)
Lemma outputfn_two_entries (h1 h2 : TarEntry) (v1 v2 : gmap string string) :
  HasSuffix (entry_name h1) ".cue" = true ->
  HasSuffix (entry_name h2) ".cue" = true ->
  Compile (entry_name h1) (entry_content h1) = inl v1 ->
  Compile (entry_name h2) (entry_content h2) = inl v2 ->
  snd (collect {| entries := [h1; h2]; final := io_EOF |})
  = if decide (map_agree v1 v2) then (Some (v1 ∪ v2), None)
    else (None,
          Some (Errorf_w (entry_name h2) (errNew "conflicting values"))).
Proof.
  intros Hh1 Hh2 Hv1 Hv2. unfold outputfn. cbn [entries final].
  rewrite (outputfn_loop_merge Compile Cue.Fill Cue.EmptyStruct v1 v1 h1)
    by (assumption || apply Cue_Fill_empty).
  destruct (decide (map_agree v1 v2)) as [Hagree|Hconflict].
  - rewrite (outputfn_loop_merge Compile Cue.Fill v1 (v1 ∪ v2) v2 h2)
      by (assumption || now apply Cue_Fill_agree).
    reflexivity.
  - cbn [outputfn_loop].
    rewrite Hh2, Hv2, (Cue_Fill_conflict _ _ Hconflict). reflexivity.
Qed.

(** The value returned for two decodable entries is the same in both
    stream orders, also when the merge is rejected: then neither order
    returns a value. *)
Lemma outputfn_two_entries_value (h1 h2 : TarEntry)
    (v1 v2 : gmap string string) :
  HasSuffix (entry_name h1) ".cue" = true ->
  HasSuffix (entry_name h2) ".cue" = true ->
  Compile (entry_name h1) (entry_content h1) = inl v1 ->
  Compile (entry_name h2) (entry_content h2) = inl v2 ->
  fst (snd (collect {| entries := [h1; h2]; final := io_EOF |}))
  = fst (snd (collect {| entries := [h2; h1]; final := io_EOF |})).
Proof.
  intros Hh1 Hh2 Hv1 Hv2.
  rewrite (outputfn_two_entries h1 h2 v1 v2), (outputfn_two_entries h2 h1 v2 v1)
    by assumption.
  destruct (decide (map_agree v1 v2)) as [Hagree|Hconflict].
  - rewrite decide_True by now symmetry.
    cbn [fst]. now rewrite (map_agree_union_comm _ _ Hagree).
  - rewrite decide_False; [reflexivity|].
    intros Hagree. apply Hconflict. now symmetry.
Qed.

(** C8: two entries with the extension that decode to values at
    disjoint paths are collected, in either stream order, into the same
    value, the union of the two, with no error. *)
Theorem outputfn_disjoint_order_independent (h1 h2 : TarEntry)
    (v1 v2 : gmap string string) :
  HasSuffix (entry_name h1) ".cue" = true ->
  HasSuffix (entry_name h2) ".cue" = true ->
  Compile (entry_name h1) (entry_content h1) = inl v1 ->
  Compile (entry_name h2) (entry_content h2) = inl v2 ->
  v1 ##ₘ v2 ->
  snd (collect {| entries := [h1; h2]; final := io_EOF |})
  = (Some (v1 ∪ v2), None)
  /\ snd (collect {| entries := [h2; h1]; final := io_EOF |})
     = snd (collect {| entries := [h1; h2]; final := io_EOF |}).
Proof.
  intros Hh1 Hh2 Hv1 Hv2 Hdisjoint.
  pose proof (map_disjoint_agree _ _ Hdisjoint) as Hagree.
  rewrite (outputfn_two_entries h1 h2 v1 v2), (outputfn_two_entries h2 h1 v2 v1)
    by assumption.
  rewrite decide_True by assumption.
  rewrite decide_True by now symmetry.
  split; [reflexivity|]. now rewrite (map_agree_union_comm _ _ Hagree).
Qed.

End CueCollector.


(** *** The collector on concrete streams *)

Example Cue_outputfn_mixed_stream :
  snd (Cue_outputfn {| entries := [readme; www_cue; dockerfile; db_cue];
                       final := io_EOF |})
  = (Some ({[ "www" := "up" ]} ∪ {[ "db" := "ready" ]}), None).
Proof. vm_compute. reflexivity. Qed.

Example Cue_outputfn_truncated_stream :
  snd (Cue_outputfn {| entries := [www_cue];
                       final := errNew "unexpected EOF" |})
  = (None, Some (errWrap "read tar stream: unexpected EOF"
                   (errNew "unexpected EOF"))).
Proof. vm_compute. reflexivity. Qed.

Lemma outputfn_skips_other_files_witness :
  Cue_outputfn {| entries := [readme; dockerfile]; final := io_EOF |}
  = ([skipping_record readme; skipping_record dockerfile],
     (Some Cue.EmptyStruct, None)).
Proof.
  destruct (outputfn_skips_other_files Cue.EmptyStruct Cue.Compile_label_text
              Cue.Fill Cue.EmptyStruct [readme; dockerfile] [] io_EOF)
    as (_ & _ & Hcollect).
  - repeat constructor.
  - exact Hcollect.
Defined.

Lemma outputfn_merge_rejected_witness :
  exists merge_error,
    snd (Cue_outputfn
           {| entries := [readme; www_cue; www_down_cue; db_cue];
              final := io_EOF |})
    = (None, Some merge_error)
    /\ Error merge_error = "override/www.cue: conflicting values"
    /\ errors_Is merge_error (errNew "conflicting values") = true.
Proof.
  apply (outputfn_merge_rejected Cue.EmptyStruct Cue.Compile_label_text
           Cue.Fill [readme; www_cue] [db_cue] www_down_cue io_EOF
           {[ "www" := "up" ]} {[ "www" := "down" ]}
           (errNew "conflicting values")).
  - vm_compute. reflexivity.
  - reflexivity.
  - vm_compute. reflexivity.
  - vm_compute. reflexivity.
Defined.

Lemma outputfn_disjoint_order_independent_witness :
  snd (Cue_outputfn {| entries := [www_cue; db_cue]; final := io_EOF |})
  = (Some ({[ "www" := "up" ]} ∪ {[ "db" := "ready" ]}), None)
  /\ snd (Cue_outputfn {| entries := [db_cue; www_cue]; final := io_EOF |})
     = snd (Cue_outputfn {| entries := [www_cue; db_cue]; final := io_EOF |}).
Proof.
  apply (outputfn_disjoint_order_independent Cue.Compile_label_text
           www_cue db_cue {[ "www" := "up" ]} {[ "db" := "ready" ]}).
  - reflexivity.
  - reflexivity.
  - vm_compute. reflexivity.
  - vm_compute. reflexivity.
  - apply map_disjoint_singleton_l_2. apply lookup_singleton_ne. discriminate.
Defined.

(** ** Build submitter *)

Section SubmitterFacts.

Context {GatewayClient Solver FS BkResult : Type}.
Context (NewSolver : GatewayClient -> Solver) (Scratch : Solver -> FS).
Context (env_LocalDirs : gmap string string).
Context (env_Update env_Compute : Solver -> option error).
Context (env_Export : FS -> FS + error) (fs_Result : FS -> BkResult + error).
Context (filepath_Abs : string -> string + error).
Context (bkCleanError : error -> error).
Context (bk_Build :
  SolveOpt -> (GatewayClient -> list LogRecord * (BkResult + error)) ->
  list LogRecord * (list (string * string) + error)).

Local Abbreviation resolve := (resolve_localdirs filepath_Abs).
Local Abbreviation submit :=
  (buildfn GatewayClient Solver FS BkResult NewSolver Scratch env_LocalDirs
     env_Update env_Compute env_Export fs_Result filepath_Abs bkCleanError
     bk_Build).

(** The loop fails with the error of [filepath.Abs] on a binding as soon
    as there is a binding it fails on. *)
Lemma resolve_localdirs_fails (visit : list (string * string))
    (localdirs : gmap string string) (label dir : string) (e : error) :
  (label, dir) ∈ visit -> filepath_Abs dir = inr e ->
  exists label' dir' e',
    (label', dir') ∈ visit /\ filepath_Abs dir' = inr e'
    /\ resolve visit localdirs = inr e'.
Proof.
  intros Hin Habs. revert localdirs.
  induction visit as [|[l d] visit IH]; intros localdirs.
  - now apply elem_of_nil in Hin.
  - cbn [resolve_localdirs].
    destruct (filepath_Abs d) as [abs|e'] eqn:Hd.
    + apply elem_of_cons in Hin as [[= -> ->] | Hin]; [congruence|].
      destruct (IH Hin (<[l := abs]> localdirs))
        as (label' & dir' & e' & Hin' & Habs' & Hres).
      exists label', dir', e'. split; [now apply elem_of_cons; right | easy].
    + exists l, d, e'. split; [apply elem_of_cons; now left | easy].
Qed.

(** When the loop ends, every binding it visited was resolved, and the
    map holds the absolute path under the label of the binding. *)
Lemma resolve_localdirs_resolved (visit : list (string * string))
    (localdirs resolved : gmap string string) :
  NoDup visit.*1 ->
  resolve visit localdirs = inl resolved ->
  (forall label dir, (label, dir) ∈ visit ->
     exists abs, filepath_Abs dir = inl abs /\ resolved !! label = Some abs)
  /\ (forall label, label ∉ visit.*1 -> resolved !! label = localdirs !! label).
Proof.
  revert localdirs. induction visit as [|[l d] visit IH]; intros localdirs.
  - intros _ [= <-]. split; [|easy]. intros label dir Hin.
    now apply elem_of_nil in Hin.
  - cbn [fmap list_fmap fst]. intros Hnodup. apply NoDup_cons in Hnodup as [Hl Hnodup].
    cbn [resolve_localdirs].
    destruct (filepath_Abs d) as [abs|e] eqn:Hd; [|discriminate].
    intros Hres. destruct (IH _ Hnodup Hres) as [Hvisited Hother].
    split.
    + intros label dir Hin.
      apply elem_of_cons in Hin as [[= -> ->] | Hin]; [|now apply Hvisited].
      exists abs. split; [assumption|].
      rewrite (Hother l Hl). apply lookup_insert_eq.
    + intros label Hlabel. apply not_elem_of_cons in Hlabel as [Hne Hlabel].
      rewrite (Hother label Hlabel). now apply lookup_insert_ne.
Qed.

(** The build entrypoint is called at most with the options made from
    the outcome of the loop. *)
Lemma buildfn_BackendBuild (visit : list (string * string)) (opts : SolveOpt) :
  BackendBuild opts ∈ fst (submit visit) ->
  resolve visit env_LocalDirs = inl (LocalDirs opts).
Proof.
  unfold buildfn.
  destruct (resolve visit env_LocalDirs) as [localdirs|e];
    [|intros Hin; now apply elem_of_nil in Hin].
  destruct (bk_Build _ _) as [during [resp|err]]; cbn [fst].
  all: rewrite ?elem_of_app, ?elem_of_cons, ?list_elem_of_fmap, ?elem_of_nil.
  all: intros Hin; f_equal.
  all: destruct_or?; try destruct Hin as (? & Hin & _); try easy.
  all: now injection Hin as ->.
Qed.

(** C9: the submitter calls the build entrypoint of the backend only
    with every local directory of the plan resolved to the absolute
    path of [filepath.Abs]; if [filepath.Abs] fails on a binding of the
    plan, the submitter returns the error of [filepath.Abs] on a
    binding, having called nothing and written no record. *)
Theorem buildfn_resolves_before_build (visit : list (string * string)) :
  visit ≡ₚ map_to_list env_LocalDirs ->
  (forall opts,
     BackendBuild opts
     ∈ fst (buildfn GatewayClient Solver FS BkResult NewSolver Scratch
               env_LocalDirs env_Update env_Compute env_Export fs_Result
               filepath_Abs bkCleanError bk_Build visit) ->
     forall label dir, env_LocalDirs !! label = Some dir ->
       exists abs,
         filepath_Abs dir = inl abs /\ LocalDirs opts !! label = Some abs)
  /\ (forall label dir e,
        env_LocalDirs !! label = Some dir -> filepath_Abs dir = inr e ->
        fst (buildfn GatewayClient Solver FS BkResult NewSolver Scratch
               env_LocalDirs env_Update env_Compute env_Export fs_Result
               filepath_Abs bkCleanError bk_Build visit)
        = []
        /\ exists label' dir' e',
             env_LocalDirs !! label' = Some dir'
             /\ filepath_Abs dir' = inr e'
             /\ snd (buildfn GatewayClient Solver FS BkResult NewSolver Scratch
               env_LocalDirs env_Update env_Compute env_Export fs_Result
               filepath_Abs bkCleanError bk_Build visit)
                = Some e').
Proof.
  intros Hvisit.
  assert (Hin : forall label dir,
             (label, dir) ∈ visit <-> env_LocalDirs !! label = Some dir).
  { intros label dir. rewrite Hvisit. apply elem_of_map_to_list. }
  assert (Hnodup : NoDup visit.*1).
  { rewrite Hvisit. apply NoDup_fst_map_to_list. }
  split.
  - intros opts Hbuild label dir Hdir.
    apply buildfn_BackendBuild in Hbuild.
    destruct (resolve_localdirs_resolved _ _ _ Hnodup Hbuild) as [Hvisited _].
    apply Hvisited. now apply Hin.
  - intros label dir e Hdir Habs. apply Hin in Hdir.
    destruct (resolve_localdirs_fails visit env_LocalDirs _ _ _ Hdir Habs)
      as (label' & dir' & e' & Hin' & Habs' & Hres).
    unfold buildfn. rewrite Hres. split; [reflexivity|].
    exists label', dir', e'. split; [now apply Hin | easy].
Qed.

End SubmitterFacts.

Example buildfn_success :
  example_buildfn Abs_in_work Build_succeeds [("src", ".")]
  = ([ Logged {| level := DebugLevel;
                 fields := [("localdirs", MapField {[ "src" := "/work/." ]});
                            ("attrs", MapField ∅)];
                 message := "spawning buildkit job" |};
       BackendBuild
         {| LocalDirs := {[ "src" := "/work/." ]};
            Exports := [ {| Type_ := "tar"; Output := PipeWriter |} ];
            FrontendAttrs := ∅ |};
       Logged (plain_record "computing env");
       Logged (plain_record "exporting env");
       Logged (exporter_record ("containerimage.digest", "sha256:ab")) ],
     None).
Proof. vm_compute. reflexivity. Qed.

Example buildfn_solve_error :
  snd (example_buildfn Abs_in_work Build_fails [("src", ".")])
  = Some (errWrap "buildkit solve: exit code: 1" (errNew "exit code: 1")).
Proof. vm_compute. reflexivity. Qed.

Lemma buildfn_resolves_before_build_witness :
  fst (example_buildfn Abs_without_cwd Build_succeeds [("src", ".")]) = []
  /\ exists label' dir' e',
       ({[ "src" := "." ]} : gmap string string) !! label' = Some dir'
       /\ Abs_without_cwd dir' = inr e'
       /\ snd (example_buildfn Abs_without_cwd Build_succeeds [("src", ".")])
          = Some e'.
Proof.
  refine (proj2 (buildfn_resolves_before_build (fun _ => tt) (fun _ => tt)
                   {[ "src" := "." ]} (fun _ => None) (fun _ => None)
                   (fun fs => inl fs) (fun _ => inl tt) Abs_without_cwd
                   (fun err => err) Build_succeeds [("src", ".")] _)
            "src" "." (errNew "getwd: no such file or directory") _ _).
  - now rewrite map_to_list_singleton.
  - apply lookup_singleton_eq.
  - reflexivity.
Defined.

(** ** Compute orchestrator *)

(** [Wait] returns the first non-nil error in the order of return. *)
Lemma errgroup_Wait_first (returned_errors : list (option error)) (e : error) :
  errgroup_Wait returned_errors = Some e
  <-> exists before after,
        returned_errors = (before ++ Some e :: after)%list
        /\ Forall (fun r => r = None) before.
Proof.
  split.
  - induction returned_errors as [|[e'|] rest IH]; cbn [errgroup_Wait].
    + discriminate.
    + intros [= ->]. now exists [], rest.
    + intros Hrest. destruct (IH Hrest) as (before & after & -> & Hnone).
      exists (None :: before), after. split; [reflexivity | now constructor].
  - intros (before & after & -> & Hnone).
    induction Hnone as [|r before -> _ IH]; [reflexivity | exact IH].
Qed.

Lemma errgroup_Wait_nil (returned_errors : list (option error)) :
  errgroup_Wait returned_errors = None
  <-> Forall (fun r => r = None) returned_errors.
Proof.
  induction returned_errors as [|[e'|] rest IH]; cbn [errgroup_Wait].
  - split; [constructor | reflexivity].
  - split; [discriminate | now inversion 1].
  - rewrite IH. split; [now constructor | now inversion 1].
Qed.

(** C1, as stated, fails: the backend fails the build before it writes
    a byte of the export; the submitter returns the error and its pipe
    end is closed; the collector reads a clean end of the stream and
    returns the empty value; [Compute] returns this value, which is not
    nil, together with the error. *)
Lemma Compute_value_returned_with_error :
  snd (example_buildfn Abs_in_work Build_fails [("src", ".")])
  = Some (errWrap "buildkit solve: exit code: 1" (errNew "exit code: 1"))
  /\ snd (Cue_outputfn {| entries := []; final := io_EOF |})
     = (Some Cue.EmptyStruct, None)
  /\ Compute (gmap string string) (fun err => err)
       [Submitter; Collector; Forwarder] None
       (snd (example_buildfn Abs_in_work Build_fails [("src", ".")]))
       (snd (Cue_outputfn {| entries := []; final := io_EOF |}))
     = (Some Cue.EmptyStruct,
        Some (errWrap "buildkit solve: exit code: 1" (errNew "exit code: 1"))).
Proof. repeat split; vm_compute; reflexivity. Qed.

Section OrchestratorFacts.

Context {Value : Type} (EmptyStruct : Value).
Context (Compile : string -> string -> Value + error).
Context (Fill : Value -> Value -> Value + error).
Context (compiler_Err : option error -> option error).

(** C1, amended: when the three functions have returned and one of them
    returned an error, [Compute] returns one error, [compiler.Err] of the
    first error in the order of return, which is not nil as long as
    [compiler.Err] keeps an error an error; the value it returns is the
    one the collector returned: nil when the collector failed, and the
    accumulator of the collector, not nil, when the collector succeeded
    and another function failed. *)
Theorem Compute_first_error_and_collector_value
    (order : list Task) (forwarder submitter : option error) (r : TarStream)
    (collector : option Value * option error) :
  (forall e, compiler_Err (Some e) <> None) ->
  order ≡ₚ [Forwarder; Submitter; Collector] ->
  collector = snd (outputfn Value EmptyStruct Compile Fill r) ->
  (forwarder <> None \/ submitter <> None \/ snd collector <> None) ->
  exists first_error before t after,
    order = (before ++ t :: after)%list
    /\ Forall (fun t' =>
                 returned_error forwarder submitter (snd collector) t' = None)
         before
    /\ returned_error forwarder submitter (snd collector) t = Some first_error
    /\ snd (Compute Value compiler_Err order forwarder submitter collector)
       = compiler_Err (Some first_error)
    /\ snd (Compute Value compiler_Err order forwarder submitter collector)
       <> None
    /\ fst (Compute Value compiler_Err order forwarder submitter collector)
       = fst collector
    /\ (snd collector <> None -> fst collector = None)
    /\ (snd collector = None -> exists out, fst collector = Some out).
Proof.
  intros Hkeeps Horder Hcollector Hfailed.
  set (returned := returned_error forwarder submitter (snd collector)).
  destruct (errgroup_Wait (map returned order)) as [e|] eqn:Hwait.
  2: { exfalso. apply errgroup_Wait_nil in Hwait.
       apply List.Forall_map in Hwait. rewrite Forall_forall in Hwait.
       assert (Hall : forall t, returned t = None).
       { intros t. apply Hwait. rewrite Horder, !elem_of_cons.
         destruct t; auto. }
       pose proof (Hall Forwarder) as Hf. pose proof (Hall Submitter) as Hs.
       pose proof (Hall Collector) as Hc. cbn in Hf, Hs, Hc.
       destruct Hfailed as [?|[?|?]]; congruence. }
  pose proof Hwait as Hfirst. apply errgroup_Wait_first in Hfirst.
  destruct Hfirst as (before' & after' & Hmap & Hnone).
  apply List.map_eq_app in Hmap.
  destruct Hmap as (before & rest & -> & <- & Hrest).
  apply List.map_eq_cons in Hrest.
  destruct Hrest as (t & after & -> & Ht & _).
  exists e, before, t, after.
  assert (Hresult :
            snd (Compute Value compiler_Err (before ++ t :: after)%list
                   forwarder submitter collector)
            = compiler_Err (Some e)).
  { unfold Compute. cbn [snd]. fold returned. now rewrite Hwait. }
  split; [reflexivity|]. split; [now apply List.Forall_map in Hnone|].
  split; [assumption|]. split; [assumption|].
  split; [rewrite Hresult; apply Hkeeps|]. split; [reflexivity|].
  clear returned Hwait Hnone Ht Hresult Hfailed Horder.
  subst collector. unfold outputfn.
  destruct (outputfn_loop_value_or_error Compile Fill EmptyStruct
              (entries r) (final r)) as [[out ->] | [err ->]]; cbn.
  - split; [congruence | eauto].
  - split; [reflexivity | discriminate].
Qed.

End OrchestratorFacts.

Lemma Compute_first_error_and_collector_value_witness :
  exists first_error before t after,
    [Collector; Submitter; Forwarder] = (before ++ t :: after)%list
    /\ Forall (fun t' =>
                 returned_error None (Some (errNew "solve"))
                   (snd (Some ({[ "www" := "up" ]} : gmap string string),
                         @None error)) t' = None)
         before
    /\ returned_error None (Some (errNew "solve"))
         (snd (Some ({[ "www" := "up" ]} : gmap string string), @None error)) t
       = Some first_error
    /\ snd (Compute (gmap string string) (fun err => err)
              [Collector; Submitter; Forwarder] None (Some (errNew "solve"))
              (Some {[ "www" := "up" ]}, None))
       = Some first_error
    /\ snd (Compute (gmap string string) (fun err => err)
              [Collector; Submitter; Forwarder] None (Some (errNew "solve"))
              (Some {[ "www" := "up" ]}, None))
       <> None
    /\ fst (Compute (gmap string string) (fun err => err)
              [Collector; Submitter; Forwarder] None (Some (errNew "solve"))
              (Some {[ "www" := "up" ]}, None))
       = fst (Some ({[ "www" := "up" ]} : gmap string string), @None error)
    /\ (snd (Some ({[ "www" := "up" ]} : gmap string string), @None error)
        <> None
        -> fst (Some ({[ "www" := "up" ]} : gmap string string), @None error)
           = None)
    /\ (snd (Some ({[ "www" := "up" ]} : gmap string string), @None error)
        = None
        -> exists out,
             fst (Some ({[ "www" := "up" ]} : gmap string string),
                  @None error) = Some out).
Proof.
  apply (Compute_first_error_and_collector_value Cue.EmptyStruct
           Cue.Compile_label_text Cue.Fill (fun err => err)
           [Collector; Submitter; Forwarder] None (Some (errNew "solve"))
           {| entries := [www_cue]; final := io_EOF |}
           (Some {[ "www" := "up" ]}, None)).
  - discriminate.
  - exact (Permutation_rev [Collector; Submitter; Forwarder]).
  - vm_compute. reflexivity.
  - right. left. discriminate.
Defined.

(** ** Connection manager *)

(** C10: [NewClient] connects to the host given when it is not empty;
    otherwise to the value of [BUILDKIT_HOST] when [os.Getenv] gives one,
    that is a value that is not empty ([os.Getenv] gives the empty
    string for a variable that is not set); otherwise to the default,
    the buildkit daemon of the container [buildkitd]. *)
Theorem NewClient_host_resolution (BkClient : Type)
    (bk_New : string -> BkClient + error) (environ : gmap string string)
    (host : string) :
  NewClient BkClient bk_New environ host
  = connect BkClient bk_New
      (if negb (String.eqb host "") then host
       else if negb (String.eqb (os_Getenv environ "BUILDKIT_HOST") "")
            then os_Getenv environ "BUILDKIT_HOST"
            else "docker-container://buildkitd").
Proof.
  unfold NewClient, defaultBuildkitHost. f_equal.
  destruct (String.eqb host "") eqn:Hhost; cbn [negb].
  - now destruct (String.eqb (os_Getenv environ "BUILDKIT_HOST") "").
  - now rewrite Hhost.
Qed.

(** The variable that is not set and the variable set to the empty
    string are the same to [os.Getenv], and so to [NewClient]. *)
Lemma os_Getenv_empty (environ : gmap string string) (key : string) :
  os_Getenv environ key = ""
  <-> environ !! key = None \/ environ !! key = Some "".
Proof.
  unfold os_Getenv. destruct (environ !! key) as [value|]; cbn.
  - split; [intros ->; now right | now intros [|[= ->]]].
  - split; [now left | reflexivity].
Qed.

Example NewClient_explicit_host :
  NewClient string (fun host => inl host)
    {[ "BUILDKIT_HOST" := "tcp://10.0.0.7:1234" ]} "unix:///run/buildkit.sock"
  = inl {| c := "unix:///run/buildkit.sock" |}.
Proof. vm_compute. reflexivity. Qed.

Example NewClient_environment_host :
  NewClient string (fun host => inl host)
    {[ "BUILDKIT_HOST" := "tcp://10.0.0.7:1234" ]} ""
  = inl {| c := "tcp://10.0.0.7:1234" |}.
Proof. vm_compute. reflexivity. Qed.

Example NewClient_default_host :
  NewClient string (fun host => inl host) ∅ ""
  = inl {| c := "docker-container://buildkitd" |}.
Proof. vm_compute. reflexivity. Qed.

Example NewClient_connection_error :
  NewClient unit (fun host => inr (errNew ("dial " ++ host))) ∅ ""
  = inr (errWrap "buildkit client: dial docker-container://buildkitd"
           (errNew "dial docker-container://buildkitd")).
Proof. vm_compute. reflexivity. Qed.

(** * Further properties *)

(** ** Progress reporter *)

(** X1: what [parseName] returns determines the name: either the name
    has no tag shape and comes back whole with an empty component, or
    the name is [@], the component, which holds no [@], the closing [@],
    one byte, and the message. *)
Theorem parseName_returns_inversion (name component msg : string) :
  parseName name = Returns (component, msg) ->
  (tag_shape name = false /\ component = "" /\ msg = name)
  \/ (exists sep,
        name = String "@" (component ++ String "@" (String sep msg))
        /\ contains_byte "@" component = false).
Proof.
  intros Hparse.
  destruct (parseName_cases name)
    as [[Hshape Hret] | [(c & sep & rest & Hname & Hc & _ & Hret)
                        | (c & _ & _ & _ & Hret)]];
    rewrite Hret in Hparse.
  - injection Hparse as <- <-. now left.
  - injection Hparse as <- <-. right. now exists sep.
  - discriminate.
Qed.

Lemma parseName_returns_inversion_witness :
  (tag_shape "@fetch@ pull" = false /\ "fetch" = "" /\ "pull" = "@fetch@ pull")
  \/ (exists sep,
        "@fetch@ pull" = String "@" ("fetch" ++ String "@" (String sep "pull"))
        /\ contains_byte "@" "fetch" = false).
Proof.
  apply (parseName_returns_inversion "@fetch@ pull" "fetch" "pull").
  reflexivity.
Defined.

(** X2: on a name made of [@], a component without [@], the closing
    [@], one byte of any value and a message, [parseName] returns the
    component and the message: the byte after the closing [@] is
    dropped, a space or not, and the message may be empty or hold
    further [@]. *)
Theorem parseName_splits_tagged_name (component : string) (sep : ascii)
    (msg : string) :
  contains_byte "@" component = false ->
  parseName (String "@" (component ++ String "@" (String sep msg)))
  = Returns (component, msg).
Proof. apply parseName_tag_message. Qed.

Lemma parseName_splits_tagged_name_witness :
  parseName (String "@" ("fetch" ++ String "@" (String "-" "a@b")))
  = Returns ("fetch", "a@b").
Proof.
  apply (parseName_splits_tagged_name "fetch" "-" "a@b"). reflexivity.
Defined.

(** X3: a name shorter than two bytes, or without a leading [@], or
    without a second [@], comes back whole as the message, with an empty
    component. *)
Theorem parseName_keeps_untagged_name (name : string) :
  tag_shape name = false -> parseName name = Returns ("", name).
Proof. apply parseName_no_tag. Qed.

Lemma parseName_keeps_untagged_name_witness :
  parseName "@nobody" = Returns ("", "@nobody").
Proof. apply (parseName_keeps_untagged_name "@nobody"). reflexivity. Defined.

Lemma parseName_panics_iff_witness :
  returned (parseName "@fetch@") = false.
Proof.
  apply (proj2 (parseName_panics_iff "@fetch@")).
  exists "fetch". split; reflexivity.
Defined.

Section ReporterCallbacks.

Context {Arg : Type} (Sprintf : string -> list Arg -> string).

(** X5: every record written by any of the three callbacks carries the
    one field [component], with the component parsed from the name of
    the vertex. *)
Theorem callbacks_records_carry_component (v : Vertex)
    (component msg : string) :
  parseName (Name v) = Returns (component, msg) ->
  (forall index, exists records,
      vertexPrint v index = Returns records
      /\ Forall (fun r => fields r = [("component", StrField component)])
           records)
  /\ (forall format a, exists records,
        statusPrint Arg Sprintf v format a = Returns records
        /\ Forall (fun r => fields r = [("component", StrField component)])
             records)
  /\ (forall stream partial format a, exists records,
        logPrint Arg Sprintf v stream partial format a = Returns records
        /\ Forall (fun r => fields r = [("component", StrField component)])
             records).
Proof.
  intros Hparse. split; [|split].
  - intros index. eexists. split.
    + unfold vertexPrint. rewrite Hparse. reflexivity.
    + repeat constructor.
  - intros format a. eexists. split.
    + unfold statusPrint. rewrite Hparse. reflexivity.
    + repeat constructor.
  - intros stream partial format a. eexists. split.
    + unfold logPrint. rewrite Hparse. reflexivity.
    + destruct (stream =? 1); [repeat constructor|].
      destruct (stream =? 2); repeat constructor.
Qed.

(** X8: a callback panics exactly when [parseName] panics on the name
    of its vertex, whatever the index, the stream or the format. *)
Theorem callbacks_return_iff_parseName_returns (v : Vertex) (index stream : Z)
    (partial : bool) (format : string) (a : list Arg) :
  returned (vertexPrint v index) = returned (parseName (Name v))
  /\ returned (statusPrint Arg Sprintf v format a)
     = returned (parseName (Name v))
  /\ returned (logPrint Arg Sprintf v stream partial format a)
     = returned (parseName (Name v)).
Proof.
  unfold vertexPrint, statusPrint, logPrint.
  destruct (parseName (Name v)) as [[component msg]|reason];
    repeat split; reflexivity.
Qed.

End ReporterCallbacks.

Lemma callbacks_records_carry_component_witness :
  exists records,
    logPrint unit Sprintf_plain
      {| Name := "@fetch@ pull"; Digest := "sha256:ab" |} 2 true "err" []
    = Returns records
    /\ Forall (fun r => fields r = [("component", StrField "fetch")]) records.
Proof.
  apply (callbacks_records_carry_component Sprintf_plain
           {| Name := "@fetch@ pull"; Digest := "sha256:ab" |} "fetch" "pull").
  reflexivity.
Defined.

Lemma logPrint_records_witness :
  logPrint unit Sprintf_plain
    {| Name := "@fetch@ pull"; Digest := "sha256:ab" |} 2 true "err" []
  = Returns
      (if 2 =? 1 then
         [ {| level := InfoLevel; fields := with_component "fetch";
              message := Sprintf_plain "err" [] |} ]
       else if 2 =? 2 then
         [ {| level := ErrorLevel; fields := with_component "fetch";
              message := Sprintf_plain "err" [] |} ]
       else []).
Proof.
  apply (logPrint_records Sprintf_plain
           {| Name := "@fetch@ pull"; Digest := "sha256:ab" |} 2 true "err" []
           "fetch" "pull").
  reflexivity.
Defined.

Lemma statusPrint_records_witness :
  statusPrint unit Sprintf_plain
    {| Name := "@fetch@ pull"; Digest := "sha256:ab" |} "resolving" []
  = Returns
      [ {| level := DebugLevel; fields := with_component "fetch";
           message := Sprintf_plain "resolving" [] |} ].
Proof.
  apply (statusPrint_records Sprintf_plain
           {| Name := "@fetch@ pull"; Digest := "sha256:ab" |} "resolving" []
           "fetch" "pull").
  reflexivity.
Defined.

(** ** Output collector *)




Section CollectorPaths.

Context {Value : Type} (EmptyStruct : Value).
Context (Compile : string -> string -> Value + error).
Context (Fill : Value -> Value -> Value + error).

Local Abbreviation loop := (outputfn_loop Value Compile Fill).

Lemma outputfn_loop_failed_prefix (out : Value) (pre rest : list TarEntry)
    (stop err : error) :
  snd (loop out pre io_EOF) = (None, Some err) ->
  snd (loop out (pre ++ rest)%list stop) = (None, Some err).
Proof.
  revert out. induction pre as [|h pre IH]; intros out.
  - rewrite outputfn_loop_end. cbn. discriminate.
  - cbn [app outputfn_loop].
    destruct (negb (HasSuffix (entry_name h) ".cue")); [apply IH|].
    destruct (Compile (entry_name h) (entry_content h)) as [v|e];
      [|now intros H].
    destruct (Fill out v) as [out'|e]; [apply IH | now intros H].
Qed.

(** X9: the collector returns a value or an error, never both and never
    neither, on every stream. *)
Theorem outputfn_value_xor_error (r : TarStream) :
  (exists out,
     snd (outputfn Value EmptyStruct Compile Fill r) = (Some out, None))
  \/ (exists err,
        snd (outputfn Value EmptyStruct Compile Fill r) = (None, Some err)).
Proof. apply outputfn_loop_value_or_error. Qed.

(** X10: what the collector returns depends on the entries with the
    extension [.cue] only: the other entries can be removed from the
    stream, wherever they are. *)
Theorem outputfn_ignores_other_files (r : TarStream) :
  snd (outputfn Value EmptyStruct Compile Fill r)
  = snd (outputfn Value EmptyStruct Compile Fill
           {| entries :=
                List.filter (fun h => HasSuffix (entry_name h) ".cue")
                  (entries r);
              final := final r |}).
Proof.
  unfold outputfn. cbn [entries final].
  generalize EmptyStruct as out.
  induction (entries r) as [|h rest IH]; intros out; [reflexivity|].
  cbn [List.filter outputfn_loop].
  destruct (HasSuffix (entry_name h) ".cue") eqn:Hh; cbn [negb].
  - cbn [outputfn_loop]. rewrite Hh. cbn [negb].
    destruct (Compile (entry_name h) (entry_content h)) as [v|e];
      [|reflexivity].
    destruct (Fill out v) as [out'|e]; [apply IH | reflexivity].
  - apply IH.
Qed.

(** X11: when the decoder fails on an entry with the extension, the
    collector returns no value and the error of the decoder as it is,
    without the name of the entry; what follows the entry in the stream
    is not read. *)
Theorem outputfn_decode_error (pre post : list TarEntry) (h : TarEntry)
    (stop : error) (acc : Value) (err : error) :
  snd (loop EmptyStruct pre io_EOF) = (Some acc, None) ->
  HasSuffix (entry_name h) ".cue" = true ->
  Compile (entry_name h) (entry_content h) = inr err ->
  snd (outputfn Value EmptyStruct Compile Fill
         {| entries := (pre ++ h :: post)%list; final := stop |})
  = (None, Some err).
Proof.
  intros Hpre Hh Herr. unfold outputfn. cbn [entries final].
  rewrite (outputfn_loop_prefix Compile Fill _ _ _ _ _ Hpre).
  cbn [outputfn_loop]. now rewrite Hh, Herr.
Qed.

(** X12: when the stream ends with an error that is not [io.EOF], after
    entries that were all collected, the collector drops the
    accumulator and returns the error wrapped, with [read tar stream: ]
    in front of its message. *)
Theorem outputfn_read_error (collected : list TarEntry) (stop : error)
    (acc : Value) :
  snd (loop EmptyStruct collected io_EOF) = (Some acc, None) ->
  errors_Is stop io_EOF = false ->
  snd (outputfn Value EmptyStruct Compile Fill
         {| entries := collected; final := stop |})
  = (None, Some (errWrap ("read tar stream: " ++ Error stop) stop)).
Proof.
  intros Hcollected Hstop. unfold outputfn. cbn [entries final].
  rewrite <- (app_nil_r collected).
  rewrite (outputfn_loop_prefix Compile Fill _ _ _ _ _ Hcollected).
  rewrite outputfn_loop_end, Hstop. reflexivity.
Qed.

(** X13: an error at the end of the stream that wraps [io.EOF] is a
    clean end: the collector does what it does on [io.EOF] itself. *)
Theorem outputfn_wrapped_EOF (items : list TarEntry) (stop : error) :
  errors_Is stop io_EOF = true ->
  outputfn Value EmptyStruct Compile Fill
    {| entries := items; final := stop |}
  = outputfn Value EmptyStruct Compile Fill
      {| entries := items; final := io_EOF |}.
Proof.
  intros Hstop. unfold outputfn. cbn [entries final].
  generalize EmptyStruct as out.
  induction items as [|h rest IH]; intros out.
  - rewrite !outputfn_loop_end, Hstop. reflexivity.
  - cbn [outputfn_loop].
    destruct (negb (HasSuffix (entry_name h) ".cue")); [now rewrite IH|].
    destruct (Compile (entry_name h) (entry_content h)) as [v|e];
      [|reflexivity].
    destruct (Fill out v) as [out'|e]; [now rewrite IH | reflexivity].
Qed.

(** X14: once an entry has made the collector fail, nothing after it
    matters: the stream may go on with any entries and end in any way,
    the error returned is the same. *)
Theorem outputfn_failure_cuts_stream (failing rest : list TarEntry)
    (stop err : error) :
  snd (outputfn Value EmptyStruct Compile Fill
         {| entries := failing; final := io_EOF |})
  = (None, Some err) ->
  snd (outputfn Value EmptyStruct Compile Fill
         {| entries := (failing ++ rest)%list; final := stop |})
  = (None, Some err).
Proof. unfold outputfn. cbn [entries final]. apply outputfn_loop_failed_prefix. Qed.

(** X15: when the collector returns a value it has written one debug
    record per entry of the stream, in stream order, each with the name
    of the entry in the field [file]: the record of the merge for an
    entry with the extension, the record of the skip for another. *)
Theorem outputfn_records_on_success (r : TarStream) (out : Value) :
  snd (outputfn Value EmptyStruct Compile Fill r) = (Some out, None) ->
  fst (outputfn Value EmptyStruct Compile Fill r)
  = map (fun h =>
           {| level := DebugLevel;
              fields := [("file", StrField (entry_name h))];
              message :=
                if HasSuffix (entry_name h) ".cue"
                then "outputfn: compiling & merging"
                else "skipping non-cue file from exporter tar stream" |})
      (entries r).
Proof.
  unfold outputfn. generalize EmptyStruct as acc.
  induction (entries r) as [|h rest IH]; intros acc.
  - rewrite outputfn_loop_end. now destruct (errors_Is (final r) io_EOF).
  - cbn [outputfn_loop map].
    destruct (HasSuffix (entry_name h) ".cue") eqn:Hh; cbn [negb].
    + destruct (Compile (entry_name h) (entry_content h)) as [v|e];
        [|discriminate].
      destruct (Fill acc v) as [acc'|e]; [|discriminate].
      cbn [logged fst snd]. intros Hrest. now rewrite (IH _ Hrest).
    + cbn [logged fst snd]. intros Hrest. now rewrite (IH _ Hrest).
Qed.


End CollectorPaths.

Lemma outputfn_decode_error_witness :
  snd (Cue_outputfn {| entries := [readme; www_cue; broken_cue; db_cue];
                       final := io_EOF |})
  = (None, Some (errNew "broken.cue: expected label=text")).
Proof.
  apply (outputfn_decode_error Cue.EmptyStruct Cue.Compile_label_text
           Cue.Fill [readme; www_cue] [db_cue] broken_cue io_EOF
           {[ "www" := "up" ]} (errNew "broken.cue: expected label=text")).
  - vm_compute. reflexivity.
  - reflexivity.
  - vm_compute. reflexivity.
Defined.

Lemma outputfn_read_error_witness :
  snd (Cue_outputfn {| entries := [readme; www_cue];
                       final := errNew "unexpected EOF" |})
  = (None, Some (errWrap ("read tar stream: " ++ Error (errNew "unexpected EOF"))
                   (errNew "unexpected EOF"))).
Proof.
  apply (outputfn_read_error Cue.EmptyStruct Cue.Compile_label_text
           Cue.Fill [readme; www_cue] (errNew "unexpected EOF")
           {[ "www" := "up" ]}).
  - vm_compute. reflexivity.
  - reflexivity.
Defined.

Lemma outputfn_wrapped_EOF_witness :
  Cue_outputfn {| entries := [readme; www_cue];
                  final := errWrap "pipe: EOF" io_EOF |}
  = Cue_outputfn {| entries := [readme; www_cue]; final := io_EOF |}.
Proof.
  apply (outputfn_wrapped_EOF Cue.EmptyStruct Cue.Compile_label_text
           Cue.Fill [readme; www_cue] (errWrap "pipe: EOF" io_EOF)).
  reflexivity.
Defined.

Lemma outputfn_failure_cuts_stream_witness :
  snd (Cue_outputfn {| entries := [www_cue; broken_cue; db_cue];
                       final := errNew "unexpected EOF" |})
  = (None, Some (errNew "broken.cue: expected label=text")).
Proof.
  apply (outputfn_failure_cuts_stream Cue.EmptyStruct Cue.Compile_label_text
           Cue.Fill [www_cue; broken_cue] [db_cue] (errNew "unexpected EOF")
           (errNew "broken.cue: expected label=text")).
  vm_compute. reflexivity.
Defined.

Lemma outputfn_records_on_success_witness :
  fst (Cue_outputfn {| entries := [readme; www_cue]; final := io_EOF |})
  = map (fun h =>
           {| level := DebugLevel;
              fields := [("file", StrField (entry_name h))];
              message :=
                if HasSuffix (entry_name h) ".cue"
                then "outputfn: compiling & merging"
                else "skipping non-cue file from exporter tar stream" |})
      [readme; www_cue].
Proof.
  apply (outputfn_records_on_success Cue.EmptyStruct Cue.Compile_label_text
           Cue.Fill {| entries := [readme; www_cue]; final := io_EOF |}
           {[ "www" := "up" ]}).
  vm_compute. reflexivity.
Defined.


(** ** Build submitter *)

Lemma filter_BackendBuild_Logged (records : list LogRecord) :
  List.filter is_BackendBuild (map Logged records) = [].
Proof. induction records as [|r records IH]; [reflexivity | exact IH]. Qed.

Lemma filter_BackendBuild_exporter (f : string * string -> LogRecord)
    (resp : list (string * string)) :
  List.filter is_BackendBuild (map (fun kv => Logged (f kv)) resp) = [].
Proof. induction resp as [|kv resp IH]; [reflexivity | exact IH]. Qed.

Section SubmitterPaths.

Context {GatewayClient Solver FS BkResult : Type}.
Context (NewSolver : GatewayClient -> Solver) (Scratch : Solver -> FS).
Context (env_LocalDirs : gmap string string).
Context (env_Update env_Compute : Solver -> option error).
Context (env_Export : FS -> FS + error) (fs_Result : FS -> BkResult + error).
Context (filepath_Abs : string -> string + error).
Context (bkCleanError : error -> error).
Context (bk_Build :
  SolveOpt -> (GatewayClient -> list LogRecord * (BkResult + error)) ->
  list LogRecord * (list (string * string) + error)).

Local Abbreviation resolve := (resolve_localdirs filepath_Abs).
Local Abbreviation submit :=
  (buildfn GatewayClient Solver FS BkResult NewSolver Scratch env_LocalDirs
     env_Update env_Compute env_Export fs_Result filepath_Abs bkCleanError
     bk_Build).
Local Abbreviation callback :=
  (build_callback GatewayClient Solver FS BkResult NewSolver Scratch
     env_Update env_Compute env_Export fs_Result).

(** The error of the loop is the error of [filepath.Abs] on a binding it
    visited. *)
Lemma resolve_localdirs_error_origin (visit : list (string * string))
    (localdirs : gmap string string) (e : error) :
  resolve visit localdirs = inr e ->
  exists label dir, (label, dir) ∈ visit /\ filepath_Abs dir = inr e.
Proof.
  revert localdirs. induction visit as [|[l d] visit IH]; intros localdirs.
  - discriminate.
  - cbn [resolve_localdirs].
    destruct (filepath_Abs d) as [abs|e'] eqn:Hd.
    + intros Hres. destruct (IH _ Hres) as (label & dir & Hin & Habs).
      exists label, dir. split; [now apply elem_of_cons; right | assumption].
    + intros [= ->]. exists l, d. split; [apply elem_of_cons; now left | easy].
Qed.

(** The map made by the loop from the bindings of a map, visited in any
    order, is determined by the map. *)
Lemma resolve_localdirs_determined (visit1 visit2 : list (string * string))
    (resolved1 resolved2 : gmap string string) :
  visit1 ≡ₚ map_to_list env_LocalDirs ->
  visit2 ≡ₚ map_to_list env_LocalDirs ->
  resolve visit1 env_LocalDirs = inl resolved1 ->
  resolve visit2 env_LocalDirs = inl resolved2 ->
  resolved1 = resolved2.
Proof.
  intros Hvisit1 Hvisit2 Hres1 Hres2.
  assert (Hnodup1 : NoDup visit1.*1)
    by (rewrite Hvisit1; apply NoDup_fst_map_to_list).
  assert (Hnodup2 : NoDup visit2.*1)
    by (rewrite Hvisit2; apply NoDup_fst_map_to_list).
  destruct (resolve_localdirs_resolved _ _ _ _ Hnodup1 Hres1) as [Hin1 Hout1].
  destruct (resolve_localdirs_resolved _ _ _ _ Hnodup2 Hres2) as [Hin2 Hout2].
  apply map_eq. intros label.
  destruct (env_LocalDirs !! label) as [dir|] eqn:Hlabel.
  - apply elem_of_map_to_list in Hlabel.
    destruct (Hin1 label dir) as (abs1 & Habs1 & ->); [now rewrite Hvisit1|].
    destruct (Hin2 label dir) as (abs2 & Habs2 & ->); [now rewrite Hvisit2|].
    congruence.
  - assert (Hfresh : forall visit, visit ≡ₚ map_to_list env_LocalDirs ->
                                   label ∉ visit.*1).
    { intros visit Hvisit Hin. apply list_elem_of_fmap in Hin.
      destruct Hin as ([l d] & -> & Hin). rewrite Hvisit in Hin.
      apply elem_of_map_to_list in Hin. cbn in Hlabel. congruence. }
    rewrite (Hout1 label (Hfresh _ Hvisit1)), (Hout2 label (Hfresh _ Hvisit2)).
    reflexivity.
Qed.

(** X17: when the local directories of the plan all resolve, the order
    in which [range] visits the map does not show: [buildfn] has the
    same effects, calls the backend with the same options and returns
    the same in any two orders. *)
Theorem buildfn_visit_order_irrelevant (visit1 visit2 : list (string * string))
    (resolved : gmap string string) :
  visit1 ≡ₚ map_to_list env_LocalDirs ->
  visit2 ≡ₚ map_to_list env_LocalDirs ->
  resolve_localdirs filepath_Abs visit1 env_LocalDirs = inl resolved ->
  buildfn GatewayClient Solver FS BkResult NewSolver Scratch env_LocalDirs
    env_Update env_Compute env_Export fs_Result filepath_Abs bkCleanError
    bk_Build visit1
  = buildfn GatewayClient Solver FS BkResult NewSolver Scratch env_LocalDirs
      env_Update env_Compute env_Export fs_Result filepath_Abs bkCleanError
      bk_Build visit2.
Proof.
  intros Hvisit1 Hvisit2 Hres1.
  destruct (resolve visit2 env_LocalDirs) as [resolved2|e] eqn:Hres2.
  - unfold buildfn. rewrite Hres1, Hres2.
    now rewrite (resolve_localdirs_determined _ _ _ _ Hvisit1 Hvisit2 Hres1 Hres2).
  - exfalso.
    destruct (resolve_localdirs_error_origin _ _ _ Hres2)
      as (label & dir & Hin & Habs).
    rewrite Hvisit2, <- Hvisit1 in Hin.
    assert (Hnodup1 : NoDup visit1.*1)
      by (rewrite Hvisit1; apply NoDup_fst_map_to_list).
    destruct (resolve_localdirs_resolved _ _ _ _ Hnodup1 Hres1) as [Hin1 _].
    destruct (Hin1 label dir Hin) as (abs & Habs' & _). congruence.
Qed.

(** X18: [buildfn] calls the build entrypoint of the backend once when
    the local directories resolve, and not at all otherwise: there is no
    second call after an error of the backend. *)
Theorem buildfn_calls_Build_once (visit : list (string * string)) :
  length (List.filter is_BackendBuild
            (fst (buildfn GatewayClient Solver FS BkResult NewSolver Scratch
                    env_LocalDirs env_Update env_Compute env_Export fs_Result
                    filepath_Abs bkCleanError bk_Build visit)))
  = match resolve_localdirs filepath_Abs visit env_LocalDirs with
    | inl _ => 1%nat
    | inr _ => 0%nat
    end.
Proof.
  unfold buildfn.
  destruct (resolve visit env_LocalDirs) as [localdirs|e]; [|reflexivity].
  destruct (bk_Build _ _) as [during [resp|err]]; cbn [fst].
  - rewrite !List.filter_app, filter_BackendBuild_Logged,
      filter_BackendBuild_exporter. reflexivity.
  - rewrite List.filter_app, filter_BackendBuild_Logged. reflexivity.
Qed.

(** X19: an error returned by [buildfn] is of one of two kinds: the
    error of [filepath.Abs] on a visited binding, as it is, returned
    before any effect; or, after the call of the backend, the error of
    the backend cleaned by [bkCleanError] and wrapped with
    [buildkit solve: ] in front of its message. *)
Theorem buildfn_error_kinds (visit : list (string * string)) (e : error) :
  snd (buildfn GatewayClient Solver FS BkResult NewSolver Scratch
         env_LocalDirs env_Update env_Compute env_Export fs_Result
         filepath_Abs bkCleanError bk_Build visit) = Some e ->
  (fst (submit visit) = []
   /\ exists label dir, (label, dir) ∈ visit /\ filepath_Abs dir = inr e)
  \/ (exists opts during err,
        BackendBuild opts ∈ fst (submit visit)
        /\ bk_Build opts callback = (during, inr err)
        /\ e = errWrap ("buildkit solve: " ++ Error (bkCleanError err))
                 (bkCleanError err)).
Proof.
  unfold buildfn.
  destruct (resolve visit env_LocalDirs) as [localdirs|e'] eqn:Hres.
  - destruct (bk_Build _ _) as [during [resp|err]] eqn:Hbuild; cbn [fst snd];
      [discriminate|].
    intros [= <-]. right. eexists _, during, err. split; [|split].
    + apply elem_of_app. left. apply elem_of_cons. right.
      apply elem_of_cons. now left.
    + exact Hbuild.
    + reflexivity.
  - cbn [fst snd]. intros [= ->]. left. split; [reflexivity|].
    now apply resolve_localdirs_error_origin with env_LocalDirs.
Qed.

(** X20: the options of every call of the backend hold one export, of
    the type [tar], into the writer of the pipe, no frontend attribute,
    and a local directory under each label of the plan and under no
    other label. *)
Theorem buildfn_build_options (visit : list (string * string))
    (opts : SolveOpt) :
  visit ≡ₚ map_to_list env_LocalDirs ->
  BackendBuild opts
  ∈ fst (buildfn GatewayClient Solver FS BkResult NewSolver Scratch
           env_LocalDirs env_Update env_Compute env_Export fs_Result
           filepath_Abs bkCleanError bk_Build visit) ->
  Exports opts = [ {| Type_ := "tar"; Output := PipeWriter |} ]
  /\ FrontendAttrs opts = ∅
  /\ dom (LocalDirs opts) = dom env_LocalDirs.
Proof.
  intros Hvisit Hbuild.
  assert (Hopts : Exports opts = [ {| Type_ := "tar"; Output := PipeWriter |} ]
                  /\ FrontendAttrs opts = ∅).
  { revert Hbuild. unfold buildfn.
    destruct (resolve visit env_LocalDirs) as [localdirs|e];
      [|intros Hin; now apply elem_of_nil in Hin].
    destruct (bk_Build _ _) as [during [resp|err]]; cbn [fst].
    all: rewrite ?elem_of_app, ?elem_of_cons, ?list_elem_of_fmap, ?elem_of_nil.
    all: intros Hin.
    all: destruct_or?; try destruct Hin as (? & Hin & _); try easy.
    all: now injection Hin as ->. }
  destruct Hopts as [Hexports Hattrs]. split; [assumption|].
  split; [assumption|].
  apply buildfn_BackendBuild in Hbuild.
  assert (Hnodup : NoDup visit.*1)
    by (rewrite Hvisit; apply NoDup_fst_map_to_list).
  destruct (resolve_localdirs_resolved _ _ _ _ Hnodup Hbuild) as [Hin Hout].
  apply set_eq. intros label. rewrite !elem_of_dom.
  destruct (env_LocalDirs !! label) as [dir|] eqn:Hlabel.
  - apply elem_of_map_to_list in Hlabel. rewrite <- Hvisit in Hlabel.
    destruct (Hin label dir Hlabel) as (abs & _ & ->). split; eauto.
  - rewrite Hout, Hlabel; [reflexivity|].
    intros Hin'. apply list_elem_of_fmap in Hin'.
    destruct Hin' as ([l d] & -> & Hin'). rewrite Hvisit in Hin'.
    apply elem_of_map_to_list in Hin'. cbn in Hlabel. congruence.
Qed.

(** X21: the callback returns a result only when the update of the
    plan, the computation of its outputs and the export all succeeded,
    and the result is that of [Result] on the exported directory; it has
    then written its two records. *)
Theorem build_callback_success (c : GatewayClient) (res : BkResult) :
  snd (build_callback GatewayClient Solver FS BkResult NewSolver Scratch
         env_Update env_Compute env_Export fs_Result c) = inl res ->
  env_Update (NewSolver c) = None
  /\ env_Compute (NewSolver c) = None
  /\ (exists outdir,
        env_Export (Scratch (NewSolver c)) = inl outdir
        /\ fs_Result outdir = inl res)
  /\ fst (callback c)
     = [plain_record "computing env"; plain_record "exporting env"].
Proof.
  unfold build_callback.
  destruct (env_Update (NewSolver c)) as [e|]; [discriminate|].
  destruct (env_Compute (NewSolver c)) as [e|]; [discriminate|].
  destruct (env_Export (Scratch (NewSolver c))) as [outdir|e]; [|discriminate].
  cbn. intros Hres. repeat split; eauto.
Qed.

(** X22: the callback fails with the error of the first step that
    fails, in the order update, computation, export, result, and the
    steps after it are not taken: the records written tell how far it
    went. *)
Theorem build_callback_first_failure (c : GatewayClient) (e : error) :
  snd (build_callback GatewayClient Solver FS BkResult NewSolver Scratch
         env_Update env_Compute env_Export fs_Result c) = inr e ->
  (env_Update (NewSolver c) = Some e /\ fst (callback c) = [])
  \/ (env_Update (NewSolver c) = None
      /\ env_Compute (NewSolver c) = Some e
      /\ fst (callback c) = [plain_record "computing env"])
  \/ (env_Update (NewSolver c) = None
      /\ env_Compute (NewSolver c) = None
      /\ fst (callback c)
         = [plain_record "computing env"; plain_record "exporting env"]
      /\ (env_Export (Scratch (NewSolver c)) = inr e
          \/ exists outdir,
               env_Export (Scratch (NewSolver c)) = inl outdir
               /\ fs_Result outdir = inr e)).
Proof.
  unfold build_callback.
  destruct (env_Update (NewSolver c)) as [e1|].
  { cbn. intros [= ->]. now left. }
  destruct (env_Compute (NewSolver c)) as [e2|].
  { cbn. intros [= ->]. right. now left. }
  destruct (env_Export (Scratch (NewSolver c))) as [outdir|e3].
  - cbn. intros Hres. right. right. repeat split; eauto.
  - cbn. intros [= ->]. right. right. repeat split; eauto.
Qed.

End SubmitterPaths.

Lemma two_dirs_bindings :
  map_to_list two_dirs = [("src", "."); ("lib", "../lib")].
Proof. vm_compute. reflexivity. Qed.

Lemma buildfn_visit_order_irrelevant_witness :
  two_dirs_buildfn [("src", "."); ("lib", "../lib")]
  = two_dirs_buildfn [("lib", "../lib"); ("src", ".")].
Proof.
  apply (buildfn_visit_order_irrelevant (fun _ => tt) (fun _ => tt) two_dirs
           (fun _ => None) (fun _ => None) (fun fs => inl fs)
           (fun _ => inl tt) Abs_in_work (fun err => err) Build_succeeds
           [("src", "."); ("lib", "../lib")] [("lib", "../lib"); ("src", ".")]
           (<[ "lib" := "/work/../lib" ]> (<[ "src" := "/work/." ]> two_dirs))).
  - now rewrite two_dirs_bindings.
  - rewrite two_dirs_bindings. apply perm_swap.
  - reflexivity.
Defined.

Lemma buildfn_error_kinds_witness :
  (fst (example_buildfn Abs_in_work Build_fails [("src", ".")]) = []
   /\ exists label dir,
        (label, dir) ∈ [("src", ".")]
        /\ Abs_in_work dir
           = inr (errWrap "buildkit solve: exit code: 1"
                    (errNew "exit code: 1")))
  \/ (exists opts during err,
        BackendBuild opts
        ∈ fst (example_buildfn Abs_in_work Build_fails [("src", ".")])
        /\ Build_fails opts
             (build_callback unit unit unit unit (fun _ => tt) (fun _ => tt)
                (fun _ => None) (fun _ => None) (fun fs => inl fs)
                (fun _ => inl tt))
           = (during, inr err)
        /\ errWrap "buildkit solve: exit code: 1" (errNew "exit code: 1")
           = errWrap ("buildkit solve: " ++ Error err) err).
Proof.
  apply (buildfn_error_kinds (fun _ => tt) (fun _ => tt) {[ "src" := "." ]}
           (fun _ => None) (fun _ => None) (fun fs => inl fs)
           (fun _ => inl tt) Abs_in_work (fun err => err) Build_fails
           [("src", ".")]
           (errWrap "buildkit solve: exit code: 1" (errNew "exit code: 1"))).
  vm_compute. reflexivity.
Defined.

Lemma buildfn_build_options_witness :
  dom (<[ "lib" := "/work/../lib" ]> (<[ "src" := "/work/." ]> two_dirs)
       : gmap string string)
  = dom two_dirs.
Proof.
  refine (proj2 (proj2
    (buildfn_build_options (fun _ => tt) (fun _ => tt) two_dirs
       (fun _ => None) (fun _ => None) (fun fs => inl fs)
       (fun _ => inl tt) Abs_in_work (fun err => err) Build_succeeds
       [("lib", "../lib"); ("src", ".")]
       {| LocalDirs := <[ "lib" := "/work/../lib" ]>
                         (<[ "src" := "/work/." ]> two_dirs);
          Exports := [ {| Type_ := ExporterTar; Output := PipeWriter |} ];
          FrontendAttrs := ∅ |} _ _))).
  - rewrite two_dirs_bindings. apply perm_swap.
  - apply elem_of_cons. right. apply elem_of_cons. left. reflexivity.
Defined.

Lemma build_callback_success_witness :
  fst (example_build_callback tt)
  = [plain_record "computing env"; plain_record "exporting env"].
Proof.
  refine (proj2 (proj2 (proj2
    (build_callback_success (fun _ => tt) (fun _ => tt)
       (fun _ => None) (fun _ => None) (fun fs => inl fs)
       (fun _ => inl tt) tt tt _)))).
  reflexivity.
Defined.

Lemma build_callback_first_failure_witness :
  fst (failing_build_callback tt) = [plain_record "computing env"]
  /\ snd (failing_build_callback tt) = inr (errNew "conflicting values").
Proof.
  destruct (build_callback_first_failure (fun _ => tt) (fun _ => tt)
              (fun _ => None)
              (fun _ => Some (errNew "conflicting values"))
              (fun fs => inl fs) (fun _ => inl tt) tt
              (errNew "conflicting values") eq_refl)
    as [[Hupdate _] | [(_ & _ & Hrecords) | (_ & Hcompute & _)]].
  - discriminate Hupdate.
  - split; [exact Hrecords | reflexivity].
  - discriminate Hcompute.
Defined.

(** ** Compute orchestrator *)

Section OrchestratorPaths.

Context {Value : Type} (compiler_Err : option error -> option error).

(** X23: the order in which the three functions return matters only
    between different errors: when the functions that failed all
    returned the same error, be it one function or several, [Compute]
    returns [compiler.Err] of that error in every order. *)
Theorem Compute_same_error_any_order (order : list Task)
    (forwarder submitter : option error)
    (collector : option Value * option error) (e : error) :
  order ≡ₚ [Forwarder; Submitter; Collector] ->
  (forall t, returned_error forwarder submitter (snd collector) t = None
             \/ returned_error forwarder submitter (snd collector) t = Some e) ->
  (exists t, returned_error forwarder submitter (snd collector) t = Some e) ->
  snd (Compute Value compiler_Err order forwarder submitter collector)
  = compiler_Err (Some e).
Proof.
  intros Horder Hsame [t Ht]. unfold Compute. cbn [snd]. f_equal.
  set (returned := returned_error forwarder submitter (snd collector)) in *.
  destruct (errgroup_Wait (map returned order)) as [e'|] eqn:Hwait.
  - apply errgroup_Wait_first in Hwait.
    destruct Hwait as (before & after & Hmap & _).
    apply List.map_eq_app in Hmap. destruct Hmap as (? & rest & _ & _ & Hrest).
    apply List.map_eq_cons in Hrest. destruct Hrest as (t' & ? & _ & Ht' & _).
    destruct (Hsame t'); congruence.
  - exfalso. apply errgroup_Wait_nil in Hwait.
    apply List.Forall_map in Hwait. rewrite Forall_forall in Hwait.
    assert (Hin : t ∈ order).
    { rewrite Horder, !elem_of_cons. destruct t; auto. }
    specialize (Hwait t Hin). cbn in Hwait. congruence.
Qed.

(** X24: when none of the three functions failed, [Compute] returns the
    value of the collector and [compiler.Err] of a nil error, in every
    order of return. *)
Theorem Compute_no_failure (order : list Task)
    (collector : option Value * option error) :
  snd collector = None ->
  Compute Value compiler_Err order None None collector
  = (fst collector, compiler_Err None).
Proof.
  intros Hcollector. unfold Compute. f_equal. f_equal.
  apply errgroup_Wait_nil. apply List.Forall_map, Forall_forall.
  intros t _. now destruct t.
Qed.

End OrchestratorPaths.

Lemma Compute_same_error_any_order_witness :
  snd (Compute (gmap string string) (fun err => err)
         [Collector; Forwarder; Submitter] None (Some (errNew "solve"))
         (Some {[ "www" := "up" ]}, None))
  = Some (errNew "solve").
Proof.
  apply (Compute_same_error_any_order (fun err => err)
           [Collector; Forwarder; Submitter] None (Some (errNew "solve"))
           (Some {[ "www" := "up" ]}, None) (errNew "solve")).
  - exact (Permutation_cons_append [Forwarder; Submitter] Collector).
  - intros t. destruct t; cbn; auto.
  - exists Submitter. reflexivity.
Defined.

Lemma Compute_no_failure_witness :
  Compute (gmap string string) (fun err => err)
    [Submitter; Forwarder; Collector] None None
    (Some {[ "www" := "up" ]}, None)
  = (fst (Some ({[ "www" := "up" ]} : gmap string string), @None error), None).
Proof.
  apply (Compute_no_failure (fun err => err)
           [Submitter; Forwarder; Collector]
           (Some {[ "www" := "up" ]}, None)).
  reflexivity.
Defined.

(** ** Connection manager *)

(** The host [NewClient] hands to [bk.New], which is not empty. *)
Lemma NewClient_dials (environ : gmap string string) (host : string) :
  exists dialed,
    dialed <> ""
    /\ forall (BkClient : Type) (bk_New : string -> BkClient + error),
         NewClient BkClient bk_New environ host
         = connect BkClient bk_New dialed.
Proof.
  unfold NewClient.
  destruct (String.eqb host "") eqn:Hhost.
  - destruct (String.eqb (os_Getenv environ "BUILDKIT_HOST") "") eqn:Henv.
    + exists defaultBuildkitHost. split; [discriminate | reflexivity].
    + exists (os_Getenv environ "BUILDKIT_HOST").
      split; [now apply String.eqb_neq | reflexivity].
  - exists host. rewrite Hhost. split; [now apply String.eqb_neq | reflexivity].
Qed.

(** X25: [NewClient] never connects to the empty host: whatever the
    argument and the environment, also with the variable set to the
    empty string, the host it hands to [bk.New] is not empty. *)
Theorem NewClient_never_dials_empty_host (environ : gmap string string)
    (host : string) :
  exists dialed,
    dialed <> ""
    /\ forall (BkClient : Type) (bk_New : string -> BkClient + error),
         NewClient BkClient bk_New environ host
         = connect BkClient bk_New dialed.
Proof. apply NewClient_dials. Qed.

(** X26: [NewClient] reads the environment only when the host given is
    empty, and then only the variable [BUILDKIT_HOST]: with a host that
    is not empty, or in two environments where [os.Getenv] gives the
    same for this variable, it does the same. *)
Theorem NewClient_environment_use (BkClient : Type)
    (bk_New : string -> BkClient + error)
    (environ environ' : gmap string string) (host : string) :
  host <> ""
  \/ os_Getenv environ "BUILDKIT_HOST" = os_Getenv environ' "BUILDKIT_HOST" ->
  NewClient BkClient bk_New environ host
  = NewClient BkClient bk_New environ' host.
Proof.
  intros Hsame. unfold NewClient.
  destruct (String.eqb host "") eqn:Hhost.
  - destruct Hsame as [Hne | ->]; [|reflexivity].
    apply String.eqb_eq in Hhost. contradiction.
  - reflexivity.
Qed.

Lemma NewClient_environment_use_witness :
  NewClient string (fun host => inl host)
    {[ "BUILDKIT_HOST" := "tcp://10.0.0.7:1234" ]} "unix:///run/buildkit.sock"
  = NewClient string (fun host => inl host) ∅ "unix:///run/buildkit.sock".
Proof.
  apply (NewClient_environment_use string (fun host => inl host)
           {[ "BUILDKIT_HOST" := "tcp://10.0.0.7:1234" ]} ∅
           "unix:///run/buildkit.sock").
  left. discriminate.
Defined.

(** X27: [NewClient] returns a client exactly when [bk.New] returns one
    for the host it dials, and this client holds what [bk.New] returned;
    its error is always the error of [bk.New] wrapped, with
    [buildkit client: ] in front of its message. *)
Theorem NewClient_result_kinds (BkClient : Type)
    (bk_New : string -> BkClient + error) (environ : gmap string string)
    (host : string) :
  match NewClient BkClient bk_New environ host with
  | inl client => exists dialed, dialed <> "" /\ bk_New dialed = inl (c client)
  | inr e =>
      exists dialed err,
        dialed <> "" /\ bk_New dialed = inr err
        /\ e = errWrap ("buildkit client: " ++ Error err) err
  end.
Proof.
  destruct (NewClient_dials environ host) as (dialed & Hdialed & Hnew).
  rewrite Hnew. unfold connect.
  destruct (bk_New dialed) as [client|err] eqn:Hdial.
  - exists dialed. now split.
  - exists dialed, err. now repeat split.
Qed.
